(** * The in-memory LRU cache of retro-metadata (cpp/src/cache/memory.cpp)

    A shallow embedding of [MemoryCache] (cpp/include/retro_metadata/cache/
    memory.hpp and cpp/src/cache/memory.cpp) and of the [CacheStats] record of
    cpp/include/retro_metadata/cache/cache.hpp, followed by the properties of
    the cache engine.

    Modelling conventions.
    - [std::any] payloads are an arbitrary type [V]; the cache never inspects
      them.
    - [std::chrono::steady_clock::time_point] is the integer number of clock
      ticks since the clock's epoch; the default-constructed [time_point{}]
      is tick 0.  [std::chrono::seconds] is an integer number of seconds.
      Both counts are [int64_t] values: the conversion of seconds to ticks
      and the addition of a duration to a time point wrap in two's
      complement, as the compiled code does.
    - Every method body runs under the instance's mutex, so a run of the
      cache is a sequence of method calls; each critical section observes
      one reading [now] of the steady clock, which the caller of the model
      passes in.
    - [std::list<Entry>] is a list of nodes; a list iterator is the identity
      of a node (a number handed out when the node is created), which stays
      valid while other nodes are inserted, erased or spliced.
    - [int] and [std::atomic<int64_t>] values are integers with the
      conversion / wrap-around written out. *)

From stdpp Require Import gmap strings list fin_maps sorting.
From Stdlib Require Import ZArith Lia Ascii.

Local Open Scope Z_scope.

(** [x ∉ [y1; ...; yn]] from hypotheses [x ≠ yi]. *)
Ltac not_in_list :=
  repeat (apply not_elem_of_cons; split; [congruence|]); apply not_elem_of_nil.

(** ** Machine integers *)

(** [static_cast<int>(n)] of an unsigned [size_t] value. *)
Definition static_cast_int (n : Z) : Z := (n + 2 ^ 31) mod 2 ^ 32 - 2 ^ 31.

(** The values an [int] can hold. *)
Definition int_range (n : Z) : Prop := - 2 ^ 31 <= n < 2 ^ 31.

(** [std::atomic<int64_t>::fetch_add(1)]: atomic arithmetic on signed types
    wraps in two's complement. *)
Definition fetch_add (counter delta : Z) : Z :=
  (counter + delta + 2 ^ 63) mod 2 ^ 64 - 2 ^ 63.

Definition INT64_MAX : Z := 2 ^ 63 - 1.

(** ** Time *)

Definition time_point := Z.
Definition seconds := Z.

(** Ticks of [steady_clock] per second (its period is a nanosecond). *)
Definition steady_ticks_per_second : Z := 1000000000.

(** [time_point{}], the value of a default-constructed [expires_at]. *)
Definition time_point_zero : time_point := 0.

(** Arithmetic on an [int64_t] count of ticks: the result is reduced to the
    range of [int64_t]. *)
Definition int64_wrap (n : Z) : Z := (n + 2 ^ 63) mod 2 ^ 64 - 2 ^ 63.

(** The conversion of a duration in seconds to the clock's duration type:
    the count is multiplied by the ticks per second. *)
Definition seconds_to_ticks (ttl : seconds) : Z :=
  int64_wrap (ttl * steady_ticks_per_second).

(** [now + ttl] for a [time_point] and a duration in seconds: the duration
    is converted to ticks and the two counts are added. *)
Definition time_point_plus (now : time_point) (ttl : seconds) : time_point :=
  int64_wrap (now + seconds_to_ticks ttl).

(** ** Records *)

Module MemoryCacheOptions.
Record t := mk {
  max_size : Z;
  default_ttl : seconds;
  cleanup_interval : seconds
}.
(** The default member initialisers of the struct. *)
Definition default : t :=
  {| max_size := 10000; default_ttl := 3600; cleanup_interval := 60 |}.
End MemoryCacheOptions.

Module CacheStats.
Record t := mk {
  size : Z;
  max_size : Z;
  expired_count : Z;
  hits : Z;
  misses : Z
}.
End CacheStats.

Record Entry (V : Type) := mkEntry {
  key : string;
  value : V;
  expires_at : time_point
}.
Arguments mkEntry {V} _ _ _.
Arguments key {V} _.
Arguments value {V} _.
Arguments expires_at {V} _.

(** [Entry::is_expired], with the clock reading passed in. *)
Definition is_expired {V} (e : Entry V) (now : time_point) : bool :=
  if bool_decide (expires_at e = time_point_zero) then false
  else bool_decide (now > expires_at e).

(** A [std::list<Entry>::iterator]: the identity of a list node. *)
Definition iterator := nat.

(** The data members of [MemoryCache].  [next_node_] is the allocator of
    the node identities: the identity the next node pushed on [lru_] gets.
    The mutex and the thread handle have no counterpart: calls are
    serialised, and a wake-up of the cleanup thread is a call of its own. *)
Record MemoryCache (V : Type) := mkCache {
  options_ : MemoryCacheOptions.t;
  cache_ : gmap string iterator;
  lru_ : list (iterator * Entry V);
  next_node_ : iterator;
  hits_ : Z;
  misses_ : Z;
  stop_cleanup_ : bool
}.
Arguments mkCache {V} _ _ _ _ _ _ _.
Arguments options_ {V} _.
Arguments cache_ {V} _.
Arguments lru_ {V} _.
Arguments next_node_ {V} _.
Arguments hits_ {V} _.
Arguments misses_ {V} _.
Arguments stop_cleanup_ {V} _.

(** ** The list operations the cache uses *)

Section list_nodes.
Context {V : Type}.
Implicit Types (l : list (iterator * Entry V)) (it : iterator).

(** [*it]: the entry of the node an iterator designates. *)
Fixpoint list_deref l it : option (Entry V) :=
  match l with
  | [] => None
  | n :: rest => if decide (n.1 = it) then Some n.2 else list_deref rest it
  end.

(** [lru_.erase(it)]. *)
Definition list_erase l it : list (iterator * Entry V) :=
  filter (λ n, n.1 ≠ it) l.

(** [lru_.splice(lru_.end(), lru_, it)]: the node moves to the back and
    keeps its identity. *)
Definition list_splice_end l it : list (iterator * Entry V) :=
  match list_deref l it with
  | Some e => list_erase l it ++ [(it, e)]
  | None => l
  end.

(** Assignment through an iterator: [it->value = v; it->expires_at = d]. *)
Definition list_assign l it (v : V) (d : time_point) :=
  (λ n : iterator * Entry V,
     if decide (n.1 = it) then (n.1, mkEntry (key n.2) v d) else n) <$> l.
End list_nodes.

(** ** The cache *)

Section memory_cache.
Context {V : Type}.
Implicit Types (st : MemoryCache V) (l : list (iterator * Entry V))
  (c : gmap string iterator) (now : time_point).

(** The constructor: empty store, zero counters. *)
Definition new_cache (options : MemoryCacheOptions.t) : MemoryCache V :=
  mkCache options ∅ [] 0%nat 0 0 false.

Definition with_store st c l : MemoryCache V :=
  mkCache (options_ st) c l (next_node_ st) (hits_ st) (misses_ st)
    (stop_cleanup_ st).

Definition count_hit st : MemoryCache V :=
  mkCache (options_ st) (cache_ st) (lru_ st) (next_node_ st)
    (fetch_add (hits_ st) 1) (misses_ st) (stop_cleanup_ st).

Definition count_miss st : MemoryCache V :=
  mkCache (options_ st) (cache_ st) (lru_ st) (next_node_ st)
    (hits_ st) (fetch_add (misses_ st) 1) (stop_cleanup_ st).

(** [MemoryCache::cleanup_expired]: one pass over [lru_] from the front. *)
Fixpoint cleanup_scan now c l : gmap string iterator * list (iterator * Entry V) :=
  match l with
  | [] => (c, [])
  | n :: rest =>
      if is_expired n.2 now then cleanup_scan now (delete (key n.2) c) rest
      else let '(c', rest') := cleanup_scan now c rest in (c', n :: rest')
  end.

Definition cleanup_expired now st : MemoryCache V :=
  let '(c, l) := cleanup_scan now (cache_ st) (lru_ st) in with_store st c l.

(** [MemoryCache::evict_if_needed]: the [while] loop, with its [break] on
    an empty list. *)
Fixpoint evict_loop (max_size : Z) c l {struct l}
  : gmap string iterator * list (iterator * Entry V) :=
  if bool_decide (static_cast_int (Z.of_nat (length l)) >= max_size) then
    match l with
    | [] => (c, l)
    | oldest :: rest => evict_loop max_size (delete (key oldest.2) c) rest
    end
  else (c, l).

Definition evict_if_needed st : MemoryCache V :=
  let '(c, l) :=
    evict_loop (MemoryCacheOptions.max_size (options_ st)) (cache_ st) (lru_ st) in
  with_store st c l.

(** [MemoryCache::get].  The branch for an iterator that designates no
    node is never taken from a well-formed cache ([cache_wf] below). *)
Definition get (k : string) now st : option V * MemoryCache V :=
  match cache_ st !! k with
  | None => (None, count_miss st)
  | Some it =>
      match list_deref (lru_ st) it with
      | None => (None, st)
      | Some entry =>
          if is_expired entry now then
            (None, count_miss
                     (with_store st (delete k (cache_ st)) (list_erase (lru_ st) it)))
          else
            (Some (value entry),
             count_hit (with_store st (cache_ st) (list_splice_end (lru_ st) it)))
      end
  end.

(** The deadline [set] computes from its [ttl] argument. *)
Definition set_deadline (options : MemoryCacheOptions.t) (ttl : seconds) now
  : time_point :=
  let ttl := if bool_decide (ttl = 0) then MemoryCacheOptions.default_ttl options
             else ttl in
  if bool_decide (ttl > 0) then time_point_plus now ttl else time_point_zero.

(** [MemoryCache::set]. *)
Definition set (k : string) (v : V) (ttl : seconds) now st : MemoryCache V :=
  let expires_at := set_deadline (options_ st) ttl now in
  match cache_ st !! k with
  | Some it =>
      with_store st (cache_ st)
        (list_assign (list_splice_end (lru_ st) it) it v expires_at)
  | None =>
      let st1 := evict_if_needed st in
      let it := next_node_ st1 in
      mkCache (options_ st1) (<[k := it]> (cache_ st1))
        (lru_ st1 ++ [(it, mkEntry k v expires_at)]) (S it)
        (hits_ st1) (misses_ st1) (stop_cleanup_ st1)
  end.

(** [MemoryCache::remove]. *)
Definition remove (k : string) st : bool * MemoryCache V :=
  match cache_ st !! k with
  | None => (false, st)
  | Some it =>
      (true, with_store st (delete k (cache_ st)) (list_erase (lru_ st) it))
  end.

(** [MemoryCache::exists]: takes the shared lock and changes nothing. *)
Definition exists_ (k : string) now st : bool * MemoryCache V :=
  match cache_ st !! k with
  | None => (false, st)
  | Some it =>
      match list_deref (lru_ st) it with
      | None => (false, st)
      | Some entry => (negb (is_expired entry now), st)
      end
  end.

(** [MemoryCache::clear]. *)
Definition clear st : MemoryCache V := with_store st ∅ [].

(** [MemoryCache::close]: stop the cleanup thread, then [clear]. *)
Definition close st : MemoryCache V :=
  clear (mkCache (options_ st) (cache_ st) (lru_ st) (next_node_ st)
           (hits_ st) (misses_ st) true).

(** One wake-up of [cleanup_loop]. *)
Definition cleanup_tick now st : MemoryCache V :=
  if stop_cleanup_ st then st else cleanup_expired now st.

(** [MemoryCache::stats]. *)
Definition stats now st : CacheStats.t :=
  let expired_count :=
    foldl (λ cnt n, if is_expired n.2 now then cnt + 1 else cnt) 0 (lru_ st) in
  {| CacheStats.size := static_cast_int (Z.of_nat (length (lru_ st)));
     CacheStats.max_size := MemoryCacheOptions.max_size (options_ st);
     CacheStats.expired_count := expired_count;
     CacheStats.hits := hits_ st;
     CacheStats.misses := misses_ st |}.

(** [MemoryCache::get_many]: each key comes with the clock reading its
    [get] observes. *)
Fixpoint get_many_loop (keys : list (string * time_point))
    (result : gmap string V) st : gmap string V * MemoryCache V :=
  match keys with
  | [] => (result, st)
  | (k, now) :: rest =>
      let '(value, st') := get k now st in
      get_many_loop rest
        (match value with Some v => <[k := v]> result | None => result end) st'
  end.

Definition get_many keys st : gmap string V * MemoryCache V :=
  get_many_loop keys ∅ st.

(** [MemoryCache::set_many]; [items] lists the map in iteration order,
    each item with the clock reading its [set] observes. *)
Fixpoint set_many (items : list (string * V * time_point)) (ttl : seconds) st
  : MemoryCache V :=
  match items with
  | [] => st
  | (k, v, now) :: rest => set_many rest ttl (set k v ttl now st)
  end.

(** [MemoryCache::delete_many]. *)
Fixpoint delete_many_loop (keys : list string) (count : Z) st
  : Z * MemoryCache V :=
  match keys with
  | [] => (count, st)
  | k :: rest =>
      let '(removed, st') := remove k st in
      delete_many_loop rest (if removed then count + 1 else count) st'
  end.

Definition delete_many keys st : Z * MemoryCache V :=
  delete_many_loop keys 0 st.
End memory_cache.

(** ** Runs of the cache *)

(** The calls a cache instance receives: the public methods and the wake-ups
    of its cleanup thread. *)
Inductive Op (V : Type) :=
  | OpGet (k : string) (now : time_point)
  | OpSet (k : string) (v : V) (ttl : seconds) (now : time_point)
  | OpRemove (k : string)
  | OpExists (k : string) (now : time_point)
  | OpClear
  | OpClose
  | OpCleanup (now : time_point)
  | OpGetMany (keys : list (string * time_point))
  | OpSetMany (items : list (string * V * time_point)) (ttl : seconds)
  | OpDeleteMany (keys : list string).
Arguments OpGet {V} _ _.
Arguments OpSet {V} _ _ _ _.
Arguments OpRemove {V} _.
Arguments OpExists {V} _ _.
Arguments OpClear {V}.
Arguments OpClose {V}.
Arguments OpCleanup {V} _.
Arguments OpGetMany {V} _.
Arguments OpSetMany {V} _ _.
Arguments OpDeleteMany {V} _.

Section runs.
Context {V : Type}.

Definition step (st : MemoryCache V) (op : Op V) : MemoryCache V :=
  match op with
  | OpGet k now => (get k now st).2
  | OpSet k v ttl now => set k v ttl now st
  | OpRemove k => (remove k st).2
  | OpExists k now => (exists_ k now st).2
  | OpClear => clear st
  | OpClose => close st
  | OpCleanup now => cleanup_tick now st
  | OpGetMany keys => (get_many keys st).2
  | OpSetMany items ttl => set_many items ttl st
  | OpDeleteMany keys => (delete_many keys st).2
  end.

Definition run (ops : list (Op V)) (st : MemoryCache V) : MemoryCache V :=
  foldl step st ops.

(** The entry stored under a key, if any: the index lookup followed by the
    dereference of the iterator. *)
Definition find_entry (st : MemoryCache V) (k : string) : option (Entry V) :=
  cache_ st !! k ≫= list_deref (lru_ st).

(** The keys in recency order, least recently used first. *)
Definition recency (st : MemoryCache V) : list string :=
  (λ n, key n.2) <$> lru_ st.

(** Entries that are physically present and not expired at [now]. *)
Definition live_count (now : time_point) (st : MemoryCache V) : nat :=
  length (filter (λ n, is_expired n.2 now = false) (lru_ st)).

(** Entries that are physically present but expired at [now]. *)
Definition expired_entries (now : time_point) (st : MemoryCache V) : nat :=
  length (filter (λ n, is_expired n.2 now = true) (lru_ st)).

(** The value a key yields when its entry is present and not expired at
    [now]. *)
Definition live_value (st : MemoryCache V) (k : string) (now : time_point)
  : option V :=
  e ← find_entry st k; if is_expired e now then None else Some (value e).

(** The result of [get_many] in the words of the specification: the keys
    asked for that are present and unexpired in the cache the call starts
    from, each with its value. *)
Definition get_many_spec (keys : list (string * time_point))
    (st : MemoryCache V) : gmap string V :=
  foldr (λ '(k, now) m,
           match live_value st k now with
           | Some v => <[k := v]> m
           | None => m
           end) ∅ keys.

(** The result of [delete_many] in the words of the specification: the
    number of keys asked for that are present in the cache the call starts
    from. *)
Definition delete_many_spec (keys : list string) (st : MemoryCache V) : Z :=
  Z.of_nat (size (list_to_set keys ∩ dom (cache_ st) : gset string)).

(** The number of [get] calls an operation makes. *)
Definition op_gets (op : Op V) : Z :=
  match op with
  | OpGet _ _ => 1
  | OpGetMany keys => Z.of_nat (length keys)
  | _ => 0
  end.

Definition run_gets (ops : list (Op V)) : Z :=
  foldr (λ op n, op_gets op + n) 0 ops.

(** The counters across a stretch of a run that makes [gets] calls of
    [get]: while no counter wraps, each moves up, by at most [gets]. *)
Definition counters_step (st st' : MemoryCache V) (gets : Z) : Prop :=
  - 2 ^ 63 <= hits_ st → - 2 ^ 63 <= misses_ st →
  hits_ st + gets <= INT64_MAX → misses_ st + gets <= INT64_MAX →
  hits_ st <= hits_ st' <= hits_ st + gets ∧
  misses_ st <= misses_ st' <= misses_ st + gets.

(** The bound on the number of stored entries the code maintains:
    [max_size], but never less than one entry. *)
Definition capacity_ok (st : MemoryCache V) : Prop :=
  Z.of_nat (length (lru_ st)) <= Z.max (MemoryCacheOptions.max_size (options_ st)) 1.

(** The key index [c] and the node list [l] agree: node identities are
    unique, and the index maps exactly the keys of the stored entries,
    each to the node that holds it. *)
Definition store_wf (c : gmap string iterator) (l : list (iterator * Entry V))
  : Prop :=
  NoDup l.*1 ∧
  ∀ k it, c !! k = Some it ↔ ∃ e, (it, e) ∈ l ∧ key e = k.

(** Well-formed caches: index and list agree, and every node identity in
    use was handed out by the allocator. *)
Record cache_wf (st : MemoryCache V) : Prop := {
  wf_store : store_wf (cache_ st) (lru_ st);
  wf_fresh : Forall (λ i, (i < next_node_ st)%nat) (lru_ st).*1
}.
End runs.

(** ** The rest of [MemoryCache] *)

Section memory_cache_rest.
Context {V : Type}.

(** [MemoryCache::size]. *)
Definition MemoryCache_size (st : MemoryCache V) : nat := length (lru_ st).

(** [make_memory_cache()]: a cache with the default options. *)
Definition make_memory_cache : MemoryCache V :=
  new_cache MemoryCacheOptions.default.

(** The operations that write the key [k]: [set] of [k] and a [set_many]
    whose items include [k]. *)
Definition op_sets (k : string) (op : Op V) : Prop :=
  match op with
  | OpSet k' _ _ _ => k' = k
  | OpSetMany items _ => k ∈ items.*1.*1
  | _ => False
  end.

(** What one call of [get] does to the counters while they do not wrap:
    a returned value is one more hit, no value is one more miss. *)
Definition get_counted (st : MemoryCache V) (r : option V * MemoryCache V)
  : Prop :=
  match r.1 with
  | Some _ => hits_ r.2 = hits_ st + 1 ∧ misses_ r.2 = misses_ st
  | None => hits_ r.2 = hits_ st ∧ misses_ r.2 = misses_ st + 1
  end.

(** An entry as [cleanup_expired] and an expired [get] leave it: gone when
    it is expired at [now]. *)
Definition unless_expired (now : time_point) (o : option (Entry V))
  : option (Entry V) :=
  match o with
  | Some e => if is_expired e now then None else Some e
  | None => None
  end.
End memory_cache_rest.

(** ** The [Cache] interface and its other implementations (cache.hpp) *)

(** The abstract class [Cache]: a backend is a state type [C] with the six
    virtual methods.  Every method is given the clock reading of the call;
    a backend that keeps no deadlines ignores it. *)
Class Cache (V C : Type) := mkCacheInterface {
  cache_get : string → time_point → C → option V * C;
  cache_set : string → V → seconds → time_point → C → C;
  cache_remove : string → C → bool * C;
  cache_exists : string → time_point → C → bool * C;
  cache_clear : C → C;
  cache_close : C → C
}.

(** [MemoryCache] implements the interface with the methods above. *)
#[export] Instance MemoryCache_Cache {V} : Cache V (MemoryCache V) := {|
  cache_get := get;
  cache_set := set;
  cache_remove := remove;
  cache_exists := exists_;
  cache_clear := clear;
  cache_close := close
|}.

(** [NullCache] has no data members. *)
Inductive NullCache := mkNullCache.

#[export] Instance NullCache_Cache {V} : Cache V NullCache := {|
  cache_get _ _ c := (None, c);
  cache_set _ _ _ _ c := c;
  cache_remove _ c := (false, c);
  cache_exists _ _ c := (false, c);
  cache_clear c := c;
  cache_close c := c
|}.

(** [PrefixedCache::prefix_key]. *)
Definition prefix_key (prefix_ key : string) : string :=
  (prefix_ +:+ ":") +:+ key.

(** [PrefixedCache]: the wrapper holds a prefix and a shared pointer to a
    backend.  The backend is the state its methods act on, so that several
    wrappers of one backend act on the same state; the wrapper itself is
    its prefix. *)
Definition PrefixedCache_Cache {V C} (backend : Cache V C) (prefix_ : string)
  : Cache V C := {|
  cache_get key now c := cache_get (prefix_key prefix_ key) now c;
  cache_set key value ttl now c := cache_set (prefix_key prefix_ key) value ttl now c;
  cache_remove key c := cache_remove (prefix_key prefix_ key) c;
  cache_exists key now c := cache_exists (prefix_key prefix_ key) now c;
  cache_clear c := cache_clear c;
  cache_close c := cache_close c
|}.

(** Strings without a colon. *)
Fixpoint colon_free (s : string) : bool :=
  match s with
  | EmptyString => true
  | String a s' => negb (Ascii.eqb a ":"%char) && colon_free s'
  end.

(** ** The cache helpers of [BaseProvider] (provider/base.cpp) *)

Section base_provider.
Context {V C : Type} `{backend : Cache V C}.

(** [BaseProvider::get_cached].  [provider_cache] is the cache the member
    [cache_] points to, [None] for a null pointer; the cache after the call
    is returned with the result. *)
Definition get_cached (name_ : string) (provider_cache : option C)
    (key : string) (now : time_point) : option V * option C :=
  match provider_cache with
  | None => (None, None)
  | Some c =>
      let '(value, c') := cache_get ((name_ +:+ ":") +:+ key) now c in
      (value, Some c')
  end.

(** [BaseProvider::set_cached]; the call leaves the [ttl] argument of
    [Cache::set] at its default, 0. *)
Definition set_cached (name_ : string) (provider_cache : option C)
    (key : string) (value : V) (now : time_point) : option C :=
  match provider_cache with
  | None => None
  | Some c => Some (cache_set ((name_ +:+ ":") +:+ key) value 0 now c)
  end.
End base_provider.

(** * Properties *)

(** ** Facts about the list operations *)

Section list_nodes_facts.
Context {V : Type}.
Implicit Types (l : list (iterator * Entry V)) (it : iterator) (e : Entry V).

Lemma list_deref_elem_of l it e : list_deref l it = Some e → (it, e) ∈ l.
Proof.
  induction l as [|[j e'] l IH]; simpl; [done|].
  case_decide; simplify_eq/=.
  - intros [= ->]. left.
  - intros H'. right. auto.
Qed.

Lemma list_deref_None l it : list_deref l it = None ↔ it ∉ l.*1.
Proof.
  induction l as [|[j e'] l IH]; simpl.
  - split; [intros _; apply not_elem_of_nil | done].
  - case_decide; simplify_eq/=.
    + split; [done|]. intros []. left.
    + rewrite IH, not_elem_of_cons. intuition congruence.
Qed.

Lemma list_deref_Some l it e :
  NoDup l.*1 → list_deref l it = Some e ↔ (it, e) ∈ l.
Proof.
  intros Hnd. split; [apply list_deref_elem_of|].
  induction l as [|[j e'] l IH]; simpl in *.
  - intros []%elem_of_nil.
  - apply NoDup_cons in Hnd as [Hj Hnd].
    intros [[= -> ->]|Hin]%elem_of_cons.
    + by rewrite decide_True.
    + rewrite decide_False; [auto|].
      intros ->. apply Hj. by apply (list_elem_of_fmap_2 fst) in Hin.
Qed.

Lemma elem_of_list_erase l it (n : iterator * Entry V) :
  n ∈ list_erase l it ↔ n.1 ≠ it ∧ n ∈ l.
Proof. unfold list_erase. by rewrite list_elem_of_filter. Qed.

Lemma Forall_sublist_of {A} (P : A → Prop) (l1 l2 : list A) :
  l1 `sublist_of` l2 → Forall P l2 → Forall P l1.
Proof.
  rewrite !Forall_forall. intros Hsub HP x Hx.
  apply HP. by apply (elem_of_sublist l1).
Qed.

Lemma suffix_sublist {A} (l1 l2 : list A) :
  l1 `suffix_of` l2 → l1 `sublist_of` l2.
Proof. intros [k ->]. by apply sublist_inserts_l. Qed.

Lemma list_erase_sublist l it : list_erase l it `sublist_of` l.
Proof. apply sublist_filter. Qed.

Lemma list_erase_NoDup l it : NoDup l.*1 → NoDup (list_erase l it).*1.
Proof.
  intros Hnd. apply (sublist_NoDup _ _ Hnd), fmap_sublist, list_erase_sublist.
Qed.

Lemma list_erase_absent l it : it ∉ l.*1 → list_erase l it = l.
Proof.
  induction l as [|[j e'] l IH]; [done|].
  rewrite fmap_cons, not_elem_of_cons. intros [Hne Hl]. simpl in Hne.
  unfold list_erase in *. rewrite filter_cons_True by (simpl; congruence).
  f_equal. auto.
Qed.

(** Erasing the node [it] and putting it back at the end permutes the
    list. *)
Lemma list_erase_snoc_perm l it e :
  NoDup l.*1 → (it, e) ∈ l → list_erase l it ++ [(it, e)] ≡ₚ l.
Proof.
  induction l as [|[j e'] l IH]; simpl.
  - intros _ []%elem_of_nil.
  - intros [Hj Hnd]%NoDup_cons [[= <- <-]|Hin]%elem_of_cons.
    + unfold list_erase. rewrite filter_cons_False by (simpl; tauto).
      fold (list_erase l it). rewrite list_erase_absent by done.
      symmetry. apply Permutation_cons_append.
    + assert (j ≠ it).
      { intros ->. apply Hj. by apply (list_elem_of_fmap_2 fst) in Hin. }
      unfold list_erase. rewrite filter_cons_True by done.
      simpl. f_equiv. by apply IH.
Qed.

Lemma list_erase_length l it e :
  NoDup l.*1 → (it, e) ∈ l → S (length (list_erase l it)) = length l.
Proof.
  intros Hnd Hin. rewrite <- (list_erase_snoc_perm l it e Hnd Hin) at 2.
  rewrite length_app. simpl. lia.
Qed.

Lemma list_splice_end_perm l it : NoDup l.*1 → list_splice_end l it ≡ₚ l.
Proof.
  intros Hnd. unfold list_splice_end.
  destruct (list_deref l it) as [e|] eqn:He; [|done].
  apply list_erase_snoc_perm; [done|]. by apply list_deref_elem_of.
Qed.

Lemma list_splice_end_last l it e :
  list_deref l it = Some e → last (list_splice_end l it) = Some (it, e).
Proof. unfold list_splice_end. intros ->. apply last_snoc. Qed.

Lemma list_assign_ids l it v d : (list_assign l it v d).*1 = l.*1.
Proof.
  unfold list_assign. rewrite <- list_fmap_compose. apply list_fmap_ext.
  intros i [j e'] _. simpl. by case_decide.
Qed.

Lemma list_assign_length l it v d : length (list_assign l it v d) = length l.
Proof. unfold list_assign. apply length_fmap. Qed.

Lemma elem_of_list_assign l it v d (n : iterator * Entry V) :
  n ∈ list_assign l it v d ↔
  ∃ e, (n.1, e) ∈ l ∧
       n.2 = if decide (n.1 = it) then mkEntry (key e) v d else e.
Proof.
  unfold list_assign. rewrite list_elem_of_fmap. split.
  - intros ([j e'] & -> & Hin). simpl. exists e'.
    case_decide; simpl; rewrite ?decide_True, ?decide_False by done; done.
  - destruct n as [j e']. simpl. intros (e & Hin & ->).
    exists (j, e). split; [|done]. simpl. by case_decide.
Qed.

Lemma list_assign_app l1 l2 it v d :
  list_assign (l1 ++ l2) it v d = list_assign l1 it v d ++ list_assign l2 it v d.
Proof. unfold list_assign. apply fmap_app. Qed.

Lemma list_assign_absent l it v d : it ∉ l.*1 → list_assign l it v d = l.
Proof.
  intros Hni. unfold list_assign. rewrite <- (list_fmap_id l) at 2.
  apply list_fmap_ext. intros i [j e'] Hl. simpl.
  rewrite decide_False; [done|]. intros ->. apply Hni.
  apply list_elem_of_lookup_2 in Hl. by apply (list_elem_of_fmap_2 fst) in Hl.
Qed.

Lemma list_erase_ids_absent l it : it ∉ (list_erase l it).*1.
Proof.
  intros ([j e'] & -> & Hin)%list_elem_of_fmap.
  apply elem_of_list_erase in Hin as [Hne _]. by apply Hne.
Qed.
End list_nodes_facts.

(** ** Well-formedness is an invariant *)

Section store_facts.
Context {V : Type}.
Implicit Types (l : list (iterator * Entry V)) (it : iterator) (e : Entry V)
  (c : gmap string iterator).

Lemma store_wf_empty : store_wf (V:=V) ∅ [].
Proof.
  split; [constructor|]. intros k it. rewrite lookup_empty. split; [done|].
  intros (e & []%elem_of_nil & _).
Qed.

Lemma store_wf_perm c l l' : l ≡ₚ l' → store_wf c l → store_wf c l'.
Proof.
  intros Hp [Hnd Hidx]. split.
  - by rewrite <- Hp.
  - intros k it. rewrite Hidx. by setoid_rewrite Hp.
Qed.

(** Two nodes holding the same key are the same node. *)
Lemma store_wf_key_inj c l it it' e e' :
  store_wf c l → (it, e) ∈ l → (it', e') ∈ l → key e = key e' →
  it = it' ∧ e = e'.
Proof.
  intros [Hnd Hidx] Hin Hin' Hk.
  assert (c !! key e = Some it) as H1 by (apply Hidx; eauto).
  assert (c !! key e = Some it') as H2 by (apply Hidx; eauto).
  assert (it = it') as <- by congruence. split; [done|].
  apply list_deref_Some in Hin, Hin'; [congruence|done..].
Qed.

Lemma store_wf_deref c l k it :
  store_wf c l → c !! k = Some it →
  ∃ e, list_deref l it = Some e ∧ key e = k ∧ (it, e) ∈ l.
Proof.
  intros [Hnd Hidx] (e & Hin & Hk)%Hidx. exists e.
  by rewrite list_deref_Some.
Qed.

Lemma store_wf_None c l k :
  store_wf c l → c !! k = None ↔ k ∉ (λ n, key n.2) <$> l.
Proof.
  intros [Hnd Hidx]. rewrite list_elem_of_fmap. split.
  - intros Hc ([it e] & -> & Hin). simpl in *.
    assert (c !! key e = Some it) by (apply Hidx; eauto). congruence.
  - intros Hni. destruct (c !! k) as [it|] eqn:Hc; [|done].
    apply Hidx in Hc as (e & Hin & <-). destruct Hni. by exists (it, e).
Qed.

(** Erasing the front node together with its index record. *)
Lemma store_wf_erase_head c l it e :
  store_wf c ((it, e) :: l) → store_wf (delete (key e) c) l.
Proof.
  intros Hwf. pose proof Hwf as [Hnd Hidx].
  rewrite fmap_cons in Hnd. apply NoDup_cons in Hnd as [Hit Hnd].
  split; [done|]. intros k it'. rewrite lookup_delete_Some, Hidx. split.
  - intros (Hne & e' & [[= -> ->]|Hin]%elem_of_cons & Hk); [done|eauto].
  - intros (e' & Hin & Hk). split; [|exists e'; split; [by right|done]].
    intros Heq. rewrite <- Hk in Heq.
    destruct (store_wf_key_inj c _ it it' e e' Hwf) as [-> _];
      [left|by right|done|].
    apply Hit. by apply (list_elem_of_fmap_2 fst) in Hin.
Qed.

(** [lru_.erase(it->second); cache_.erase(it)] for a key of the index. *)
Lemma store_wf_erase c l k it :
  store_wf c l → c !! k = Some it →
  store_wf (delete k c) (list_erase l it).
Proof.
  intros Hwf Hc.
  destruct (store_wf_deref _ _ _ _ Hwf Hc) as (e & _ & <- & Hin).
  apply store_wf_erase_head with it.
  apply store_wf_perm with l; [|done].
  rewrite <- (list_erase_snoc_perm l it e) at 1; [|apply Hwf|done].
  symmetry. apply Permutation_cons_append.
Qed.

Lemma store_wf_splice c l it : store_wf c l → store_wf c (list_splice_end l it).
Proof.
  intros Hwf. apply store_wf_perm with l; [|done].
  symmetry. apply list_splice_end_perm, Hwf.
Qed.

Lemma store_wf_assign c l it v d : store_wf c l → store_wf c (list_assign l it v d).
Proof.
  intros [Hnd Hidx]. split; [by rewrite list_assign_ids|].
  intros k j. rewrite Hidx. split.
  - intros (e & Hin & Hk).
    exists (if decide (j = it) then mkEntry (key e) v d else e). split.
    + apply elem_of_list_assign. by exists e.
    + by case_decide.
  - intros (e' & (e & Hin & He')%elem_of_list_assign & Hk). simpl in *.
    exists e. split; [done|]. subst e'. by case_decide.
Qed.

(** [lru_.push_back(Entry{...}); cache_[key] = std::prev(lru_.end())]. *)
Lemma store_wf_push_back c l k it v d :
  store_wf c l → c !! k = None → it ∉ l.*1 →
  store_wf (<[k := it]> c) (l ++ [(it, mkEntry k v d)]).
Proof.
  intros Hwf Hc Hit. pose proof Hwf as [Hnd Hidx].
  apply store_wf_perm with ((it, mkEntry k v d) :: l);
    [apply Permutation_cons_append|].
  split; [rewrite fmap_cons; by apply NoDup_cons|].
  intros k' it'. rewrite lookup_insert_Some, Hidx. split.
  - intros [[<- <-]|[Hne (e & Hin & Hk)]].
    + eexists. split; [left|done].
    + exists e. split; [by right|done].
  - intros (e & [[= -> ->]|Hin]%elem_of_cons & Hk); simpl in *.
    + by left.
    + right. split; [|eauto]. intros <-.
      apply (store_wf_None _ _ k Hwf) in Hc. apply Hc.
      apply list_elem_of_fmap. by exists (it', e).
Qed.

Lemma evict_loop_wf m c l :
  store_wf c l → store_wf (evict_loop m c l).1 (evict_loop m c l).2.
Proof.
  revert c. induction l as [|[it e] l IH]; intros c Hwf; simpl.
  - by case_bool_decide.
  - case_bool_decide; [|done]. apply IH.
    by apply store_wf_erase_head with it.
Qed.

Lemma evict_loop_suffix m c l : (evict_loop m c l).2 `suffix_of` l.
Proof.
  revert c. induction l as [|[it e] l IH]; intros c; simpl.
  - by case_bool_decide.
  - case_bool_decide; [|done]. by apply suffix_cons_r.
Qed.

Lemma cleanup_scan_filter now c l :
  (cleanup_scan now c l).2 = filter (λ n, is_expired n.2 now = false) l.
Proof.
  revert c. induction l as [|[it e] l IH]; intros c; simpl; [done|].
  destruct (is_expired e now) eqn:He.
  - rewrite filter_cons_False by (simpl; congruence). apply IH.
  - rewrite filter_cons_True by done.
    specialize (IH c). destruct (cleanup_scan now c l). simpl in *. by f_equal.
Qed.

Lemma cleanup_scan_wf now c pre l :
  store_wf c (pre ++ l) →
  store_wf (cleanup_scan now c l).1 (pre ++ (cleanup_scan now c l).2).
Proof.
  revert c pre. induction l as [|[it e] l IH]; intros c pre Hwf; simpl; [done|].
  destruct (is_expired e now) eqn:He.
  - apply IH. apply store_wf_erase_head with it.
    apply store_wf_perm with (pre ++ (it, e) :: l); [|done].
    symmetry. apply Permutation_middle.
  - specialize (IH c (pre ++ [(it, e)])).
    destruct (cleanup_scan now c l) as [c' l']. simpl in *.
    rewrite <- !app_assoc in IH. simpl in IH. by apply IH.
Qed.
End store_facts.

Section cache_invariant.
Context {V : Type}.
Implicit Types (st : MemoryCache V) (now : time_point) (k : string).

Lemma evict_if_needed_eq st :
  evict_if_needed st =
  with_store st
    (evict_loop (MemoryCacheOptions.max_size (options_ st)) (cache_ st) (lru_ st)).1
    (evict_loop (MemoryCacheOptions.max_size (options_ st)) (cache_ st) (lru_ st)).2.
Proof. unfold evict_if_needed. by destruct (evict_loop _ _ _). Qed.

Lemma cleanup_expired_eq now st :
  cleanup_expired now st =
  with_store st (cleanup_scan now (cache_ st) (lru_ st)).1
    (cleanup_scan now (cache_ st) (lru_ st)).2.
Proof. unfold cleanup_expired. by destruct (cleanup_scan _ _ _). Qed.

Lemma new_cache_wf options : cache_wf (new_cache (V:=V) options).
Proof. split; [apply store_wf_empty|constructor]. Qed.

Lemma with_store_wf st c l :
  store_wf c l → Forall (λ i, (i < next_node_ st)%nat) l.*1 →
  cache_wf (with_store st c l).
Proof. by split. Qed.

Lemma get_wf k now st : cache_wf st → cache_wf (get k now st).2.
Proof.
  intros [Hst Hfr]. unfold get.
  destruct (cache_ st !! k) as [it|] eqn:Hc; [|by split].
  destruct (list_deref (lru_ st) it) as [e|] eqn:He; [|by split].
  destruct (is_expired e now); simpl; split; simpl.
  - by apply store_wf_erase.
  - eapply Forall_sublist_of; [|done]. apply fmap_sublist, list_erase_sublist.
  - by apply store_wf_splice.
  - by rewrite (list_splice_end_perm _ _ (proj1 Hst)).
Qed.

Lemma evict_if_needed_wf st : cache_wf st → cache_wf (evict_if_needed st).
Proof.
  intros [Hst Hfr]. rewrite evict_if_needed_eq. apply with_store_wf.
  - by apply evict_loop_wf.
  - eapply Forall_sublist_of; [|done].
    apply fmap_sublist, suffix_sublist, evict_loop_suffix.
Qed.

Lemma evict_if_needed_index st k :
  cache_wf st → cache_ st !! k = None → cache_ (evict_if_needed st) !! k = None.
Proof.
  intros Hwf Hc. pose proof (evict_if_needed_wf st Hwf) as [Hst' _].
  rewrite evict_if_needed_eq in *. simpl in *.
  apply (store_wf_None _ _ k Hst'). apply (store_wf_None _ _ k (wf_store _ Hwf)) in Hc.
  intros Hin. apply Hc. eapply elem_of_sublist; [done|].
  apply fmap_sublist, suffix_sublist, evict_loop_suffix.
Qed.

Lemma set_wf k v ttl now st : cache_wf st → cache_wf (set k v ttl now st).
Proof.
  intros Hwf. pose proof Hwf as [Hst Hfr]. unfold set.
  destruct (cache_ st !! k) as [it|] eqn:Hc.
  - apply with_store_wf.
    + by apply store_wf_assign, store_wf_splice.
    + by rewrite list_assign_ids, (list_splice_end_perm _ _ (proj1 Hst)).
  - pose proof (evict_if_needed_wf st Hwf) as [Hst' Hfr'].
    pose proof (evict_if_needed_index st k Hwf Hc) as Hc'.
    split; simpl.
    + apply store_wf_push_back; [done..|].
      intros Hin. eapply Forall_forall in Hfr'; [|done]. lia.
    + rewrite fmap_app. apply Forall_app. split.
      * eapply Forall_impl; [done|]. simpl. lia.
      * repeat constructor.
Qed.

Lemma remove_wf k st : cache_wf st → cache_wf (remove k st).2.
Proof.
  intros [Hst Hfr]. unfold remove.
  destruct (cache_ st !! k) as [it|] eqn:Hc; [|by split].
  apply with_store_wf; [by apply store_wf_erase|].
  eapply Forall_sublist_of; [|done]. apply fmap_sublist, list_erase_sublist.
Qed.

Lemma exists_state k now st : (exists_ k now st).2 = st.
Proof.
  unfold exists_. destruct (cache_ st !! k); [|done].
  by destruct (list_deref _ _).
Qed.

Lemma clear_wf st : cache_wf (clear st).
Proof. apply with_store_wf; [apply store_wf_empty|constructor]. Qed.

Lemma close_wf st : cache_wf (close st).
Proof. apply clear_wf. Qed.

Lemma cleanup_expired_wf now st : cache_wf st → cache_wf (cleanup_expired now st).
Proof.
  intros [Hst Hfr]. rewrite cleanup_expired_eq. apply with_store_wf.
  - by apply (cleanup_scan_wf now _ []).
  - rewrite cleanup_scan_filter. eapply Forall_sublist_of; [|done].
    apply fmap_sublist, sublist_filter.
Qed.

Lemma cleanup_tick_wf now st : cache_wf st → cache_wf (cleanup_tick now st).
Proof.
  intros Hwf. unfold cleanup_tick.
  destruct (stop_cleanup_ st); [done|by apply cleanup_expired_wf].
Qed.

Lemma get_many_loop_wf keys result st :
  cache_wf st → cache_wf (get_many_loop keys result st).2.
Proof.
  revert result st. induction keys as [|[k now] keys IH]; intros result st Hwf;
    simpl; [done|].
  pose proof (get_wf k now st Hwf). destruct (get k now st). by apply IH.
Qed.

Lemma set_many_wf items ttl st : cache_wf st → cache_wf (set_many items ttl st).
Proof.
  revert st. induction items as [|[[k v] now] items IH]; intros st Hwf;
    simpl; [done|].
  by apply IH, set_wf.
Qed.

Lemma delete_many_loop_wf keys count st :
  cache_wf st → cache_wf (delete_many_loop keys count st).2.
Proof.
  revert count st. induction keys as [|k keys IH]; intros count st Hwf;
    simpl; [done|].
  pose proof (remove_wf k st Hwf). destruct (remove k st). by apply IH.
Qed.

Lemma step_wf st op : cache_wf st → cache_wf (step st op).
Proof.
  intros Hwf. destruct op; simpl.
  - by apply get_wf.
  - by apply set_wf.
  - by apply remove_wf.
  - by rewrite exists_state.
  - apply clear_wf.
  - apply close_wf.
  - by apply cleanup_tick_wf.
  - by apply get_many_loop_wf.
  - by apply set_many_wf.
  - by apply delete_many_loop_wf.
Qed.

Lemma run_wf ops st : cache_wf st → cache_wf (run ops st).
Proof.
  revert st. induction ops as [|op ops IH]; intros st Hwf; simpl; [done|].
  by apply IH, step_wf.
Qed.

(** Every state a cache reaches from its constructor is well-formed. *)
Lemma reachable_wf options ops : cache_wf (run (V:=V) ops (new_cache options)).
Proof. apply run_wf, new_cache_wf. Qed.
End cache_invariant.

(** ** What each operation does to the stored entries *)

Section operation_facts.
Context {V : Type}.
Implicit Types (st : MemoryCache V) (now : time_point) (k : string)
  (e : Entry V) (it : iterator).

Lemma static_cast_int_id n : int_range n → static_cast_int n = n.
Proof.
  unfold int_range, static_cast_int. intros Hn.
  rewrite Z.mod_small by lia. lia.
Qed.

Lemma fetch_add_1 x : - 2 ^ 63 <= x < INT64_MAX → fetch_add x 1 = x + 1.
Proof.
  unfold fetch_add, INT64_MAX. intros Hx. rewrite Z.mod_small by lia. lia.
Qed.

Lemma find_entry_Some st k e :
  cache_wf st →
  find_entry st k = Some e ↔ (∃ it, (it, e) ∈ lru_ st) ∧ key e = k.
Proof.
  intros [Hst _]. unfold find_entry. rewrite bind_Some. split.
  - intros (it & Hc & He).
    destruct (store_wf_deref _ _ _ _ Hst Hc) as (e' & He' & Hk & Hin).
    assert (e' = e) as -> by congruence. eauto.
  - intros [[it Hin] Hk]. exists it. split.
    + apply Hst. eauto.
    + apply list_deref_Some; [apply Hst|done].
Qed.

Lemma find_entry_None st k :
  cache_wf st → find_entry st k = None ↔ cache_ st !! k = None.
Proof.
  intros [Hst _]. unfold find_entry. destruct (cache_ st !! k) as [it|] eqn:Hc;
    simpl; [|done].
  destruct (store_wf_deref _ _ _ _ Hst Hc) as (e' & -> & _). done.
Qed.

Lemma find_entry_index st k e :
  find_entry st k = Some e →
  ∃ it, cache_ st !! k = Some it ∧ list_deref (lru_ st) it = Some e.
Proof. unfold find_entry. by rewrite bind_Some. Qed.

(** Two well-formed caches holding the same entries answer lookups alike. *)
Lemma find_entry_ext st1 st2 k :
  cache_wf st1 → cache_wf st2 →
  (∀ e, key e = k →
     (∃ it, (it, e) ∈ lru_ st1) ↔ (∃ it, (it, e) ∈ lru_ st2)) →
  find_entry st1 k = find_entry st2 k.
Proof.
  intros Hwf1 Hwf2 Hiff. apply option_eq. intros e.
  rewrite !find_entry_Some by done.
  split; intros [Hex Hk]; (split; [by apply (Hiff e Hk)|done]).
Qed.

Lemma get_absent st k now :
  cache_ st !! k = None → get k now st = (None, count_miss st).
Proof. unfold get. by intros ->. Qed.

Lemma get_expired st k now e :
  find_entry st k = Some e → is_expired e now = true →
  get k now st = (None, count_miss (remove k st).2).
Proof.
  intros (it & Hc & He)%find_entry_index Hexp.
  unfold get, remove. by rewrite Hc, He, Hexp.
Qed.

Lemma get_hit st k now e :
  find_entry st k = Some e → is_expired e now = false →
  ∃ it, cache_ st !! k = Some it ∧
    get k now st =
    (Some (value e),
     count_hit (with_store st (cache_ st) (list_erase (lru_ st) it ++ [(it, e)]))).
Proof.
  intros (it & Hc & He)%find_entry_index Hexp. exists it. split; [done|].
  unfold get, list_splice_end. by rewrite Hc, He, Hexp.
Qed.

Lemma remove_present st k it :
  cache_ st !! k = Some it →
  remove k st =
  (true, with_store st (delete k (cache_ st)) (list_erase (lru_ st) it)).
Proof. unfold remove. by intros ->. Qed.

Lemma remove_absent st k : cache_ st !! k = None → remove k st = (false, st).
Proof. unfold remove. by intros ->. Qed.

Lemma remove_find_entry st k k' :
  cache_wf st →
  find_entry (remove k st).2 k' = if decide (k' = k) then None else find_entry st k'.
Proof.
  intros Hwf. pose proof (remove_wf k st Hwf) as Hwf'. case_decide as Hk.
  - subst k'. apply find_entry_None; [done|].
    unfold remove. destruct (cache_ st !! k) eqn:Hc; simpl; [|done].
    apply lookup_delete_eq.
  - destruct (cache_ st !! k) as [it|] eqn:Hc.
    + apply find_entry_ext; [done..|]. intros e He.
      rewrite (remove_present _ _ _ Hc). simpl.
      setoid_rewrite elem_of_list_erase. simpl.
      split; [intros (it' & _ & Hin); eauto|].
      intros [it' Hin]. exists it'. split; [|done]. intros ->.
      apply Hk. rewrite <- He.
      destruct Hwf as [Hst _].
      destruct (store_wf_deref _ _ _ _ Hst Hc) as (e' & _ & Hk' & Hin').
      destruct (store_wf_key_inj _ _ _ _ _ _ Hst Hin Hin') as [_ ->];
        [|done].
      apply list_deref_Some in Hin, Hin'; [congruence|apply Hst..].
    + by rewrite (remove_absent _ _ Hc).
Qed.

Lemma count_miss_find_entry st k : find_entry (count_miss st) k = find_entry st k.
Proof. done. Qed.

Lemma count_hit_find_entry st k : find_entry (count_hit st) k = find_entry st k.
Proof. done. Qed.
End operation_facts.

(** ** The capacity bound *)

Section capacity.
Context {V : Type}.
Implicit Types (st : MemoryCache V) (now : time_point) (k : string)
  (l : list (iterator * Entry V)) (c : gmap string iterator).

Lemma evict_loop_eq m c l :
  evict_loop m c l =
  if bool_decide (static_cast_int (Z.of_nat (length l)) >= m) then
    match l with
    | [] => (c, l)
    | oldest :: rest => evict_loop m (delete (key oldest.2) c) rest
    end
  else (c, l).
Proof. by destruct l. Qed.

Lemma evict_loop_length m c l :
  Z.of_nat (length l) < 2 ^ 31 →
  (evict_loop m c l).2 = [] ∨ Z.of_nat (length (evict_loop m c l).2) < m.
Proof.
  revert c. induction l as [|n l IH]; intros c Hlen; rewrite evict_loop_eq.
  - left. by case_bool_decide.
  - case_bool_decide as Hcond.
    + apply IH. simpl in Hlen. lia.
    + right. rewrite static_cast_int_id in Hcond by (unfold int_range; lia).
      cbn [snd]. lia.
Qed.

Lemma evict_loop_below m c l :
  Z.of_nat (length l) < 2 ^ 31 → Z.of_nat (length l) < m →
  evict_loop m c l = (c, l).
Proof.
  intros Hlen Hm. rewrite evict_loop_eq.
  rewrite static_cast_int_id by (unfold int_range; lia).
  rewrite bool_decide_eq_false_2 by lia. done.
Qed.

Lemma evict_loop_full m c n l :
  Z.of_nat (length (n :: l)) < 2 ^ 31 → Z.of_nat (length (n :: l)) = m →
  evict_loop m c (n :: l) = (delete (key n.2) c, l).
Proof.
  intros Hlen Hm. rewrite evict_loop_eq.
  rewrite static_cast_int_id by (unfold int_range; lia).
  rewrite bool_decide_eq_true_2 by lia.
  apply evict_loop_below; simpl in *; lia.
Qed.

Lemma evict_loop_nonpositive m c l :
  Z.of_nat (length l) < 2 ^ 31 → m <= 0 → (evict_loop m c l).2 = [].
Proof.
  intros Hlen Hm. destruct (evict_loop_length m c l Hlen) as [|Hlt]; [done|].
  lia.
Qed.

Lemma get_options k now st : options_ (get k now st).2 = options_ st.
Proof. unfold get. by repeat case_match. Qed.

Lemma set_options k v ttl now st : options_ (set k v ttl now st) = options_ st.
Proof.
  unfold set. case_match; [done|]. simpl. by rewrite evict_if_needed_eq.
Qed.

Lemma remove_options k st : options_ (remove k st).2 = options_ st.
Proof. unfold remove. by case_match. Qed.

Lemma cleanup_tick_options now st : options_ (cleanup_tick now st) = options_ st.
Proof.
  unfold cleanup_tick. case_match; [done|]. by rewrite cleanup_expired_eq.
Qed.

Lemma get_many_loop_options keys result st :
  options_ (get_many_loop keys result st).2 = options_ st.
Proof.
  revert result st. induction keys as [|[k now] keys IH]; intros result st;
    simpl; [done|].
  pose proof (get_options k now st). destruct (get k now st) as [o st'].
  rewrite IH. done.
Qed.

Lemma set_many_options items ttl st : options_ (set_many items ttl st) = options_ st.
Proof.
  revert st. induction items as [|[[k v] now] items IH]; intros st; simpl; [done|].
  by rewrite IH, set_options.
Qed.

Lemma delete_many_loop_options keys count st :
  options_ (delete_many_loop keys count st).2 = options_ st.
Proof.
  revert count st. induction keys as [|k keys IH]; intros count st; simpl; [done|].
  pose proof (remove_options k st). destruct (remove k st) as [b st'].
  rewrite IH. done.
Qed.

Lemma step_options st op : options_ (step st op) = options_ st.
Proof.
  destruct op; simpl; try done.
  - apply get_options.
  - apply set_options.
  - apply remove_options.
  - by rewrite exists_state.
  - apply cleanup_tick_options.
  - apply get_many_loop_options.
  - apply set_many_options.
  - apply delete_many_loop_options.
Qed.

Lemma run_options ops st : options_ (run ops st) = options_ st.
Proof.
  revert st. induction ops as [|op ops IH]; intros st; simpl; [done|].
  by rewrite IH, step_options.
Qed.

Lemma get_length k now st :
  cache_wf st → (length (lru_ (get k now st).2) ≤ length (lru_ st))%nat.
Proof.
  intros [[Hnd _] _]. unfold get. repeat case_match; simpl; try done.
  - apply sublist_length, list_erase_sublist.
  - by rewrite (list_splice_end_perm _ _ Hnd).
Qed.

Lemma remove_length k st :
  (length (lru_ (remove k st).2) ≤ length (lru_ st))%nat.
Proof.
  unfold remove. case_match; simpl; [|done].
  apply sublist_length, list_erase_sublist.
Qed.

Lemma cleanup_tick_length now st :
  (length (lru_ (cleanup_tick now st)) ≤ length (lru_ st))%nat.
Proof.
  unfold cleanup_tick. case_match; [done|]. rewrite cleanup_expired_eq. simpl.
  rewrite cleanup_scan_filter. apply length_filter.
Qed.

Lemma set_capacity_ok k v ttl now st :
  cache_wf st → int_range (MemoryCacheOptions.max_size (options_ st)) →
  capacity_ok st → capacity_ok (set k v ttl now st).
Proof.
  intros [[Hnd _] _] Hm Hcap. unfold capacity_ok in *.
  rewrite set_options. unfold set. case_match; simpl.
  - by rewrite list_assign_length, (list_splice_end_perm _ _ Hnd).
  - rewrite evict_if_needed_eq. simpl. rewrite length_app. simpl.
    destruct (evict_loop_length (MemoryCacheOptions.max_size (options_ st))
                (cache_ st) (lru_ st)) as [->|Hlt]; simpl.
    + unfold int_range in Hm. lia.
    + lia.
    + lia.
Qed.

Lemma capacity_ok_shrink st st' :
  options_ st' = options_ st →
  (length (lru_ st') ≤ length (lru_ st))%nat →
  capacity_ok st → capacity_ok st'.
Proof. unfold capacity_ok. intros -> Hlen Hcap. lia. Qed.

Lemma get_many_loop_length keys result st :
  cache_wf st →
  (length (lru_ (get_many_loop keys result st).2) ≤ length (lru_ st))%nat.
Proof.
  revert result st. induction keys as [|[k now] keys IH]; intros result st Hwf;
    simpl; [done|].
  pose proof (get_wf k now st Hwf) as Hwf'.
  pose proof (get_length k now st Hwf) as Hlen.
  destruct (get k now st) as [o st']. simpl in *.
  etrans; [by apply IH|done].
Qed.

Lemma delete_many_loop_length keys count st :
  (length (lru_ (delete_many_loop keys count st).2) ≤ length (lru_ st))%nat.
Proof.
  revert count st. induction keys as [|k keys IH]; intros count st; simpl; [done|].
  pose proof (remove_length k st) as Hlen.
  destruct (remove k st) as [b st']. simpl in *.
  etrans; [by apply IH|done].
Qed.

Lemma set_many_capacity_ok items ttl st :
  cache_wf st → int_range (MemoryCacheOptions.max_size (options_ st)) →
  capacity_ok st → capacity_ok (set_many items ttl st).
Proof.
  revert st. induction items as [|[[k v] now] items IH]; intros st Hwf Hm Hcap;
    simpl; [done|].
  apply IH; [by apply set_wf|by rewrite set_options|by apply set_capacity_ok].
Qed.

Lemma step_capacity_ok st op :
  cache_wf st → int_range (MemoryCacheOptions.max_size (options_ st)) →
  capacity_ok st → capacity_ok (step st op).
Proof.
  intros Hwf Hm Hcap. destruct op; simpl.
  - eapply capacity_ok_shrink; [apply get_options|by apply get_length|done].
  - by apply set_capacity_ok.
  - eapply capacity_ok_shrink; [apply remove_options|apply remove_length|done].
  - by rewrite exists_state.
  - apply (capacity_ok_shrink st); [done|simpl; lia|done].
  - apply (capacity_ok_shrink st); [done|simpl; lia|done].
  - eapply capacity_ok_shrink;
      [apply cleanup_tick_options|apply cleanup_tick_length|done].
  - eapply capacity_ok_shrink;
      [apply get_many_loop_options|by apply get_many_loop_length|done].
  - by apply set_many_capacity_ok.
  - eapply capacity_ok_shrink;
      [apply delete_many_loop_options|apply delete_many_loop_length|done].
Qed.

Lemma run_capacity_ok ops st :
  cache_wf st → int_range (MemoryCacheOptions.max_size (options_ st)) →
  capacity_ok st → capacity_ok (run ops st).
Proof.
  revert st. induction ops as [|op ops IH]; intros st Hwf Hm Hcap; simpl; [done|].
  apply IH; [by apply step_wf|by rewrite step_options|by apply step_capacity_ok].
Qed.

Lemma new_cache_capacity_ok options : capacity_ok (new_cache (V:=V) options).
Proof. unfold capacity_ok. simpl. lia. Qed.

Lemma recency_assign l it v d :
  (λ n, key n.2) <$> list_assign l it v d = (λ n, key n.2) <$> l.
Proof.
  unfold list_assign. rewrite <- list_fmap_compose. apply list_fmap_ext.
  intros i [j e] _. simpl. by case_decide.
Qed.

Lemma live_count_le now st : (live_count now st ≤ length (lru_ st))%nat.
Proof. apply length_filter. Qed.

(** With a [max_size] of zero or less, [set] leaves exactly the entry it
    wrote. *)
Lemma set_nonpositive_max_size k v ttl now st :
  cache_wf st → capacity_ok st →
  MemoryCacheOptions.max_size (options_ st) <= 0 →
  recency (set k v ttl now st) = [k].
Proof.
  intros Hwf Hcap Hm. pose proof Hwf as [Hst _]. unfold capacity_ok in Hcap.
  unfold recency, set. destruct (cache_ st !! k) as [it|] eqn:Hc; simpl.
  - rewrite recency_assign.
    destruct (store_wf_deref _ _ _ _ Hst Hc) as (e & He & Hk & Hin).
    unfold list_splice_end. rewrite He.
    destruct (lru_ st) as [|n [|n' l]] eqn:Hl; simpl in *; [|clear Hcap|lia].
    + by apply elem_of_nil in Hin.
    + apply list_elem_of_singleton in Hin as <-.
      unfold list_erase. rewrite filter_cons_False by (simpl; tauto).
      simpl. by rewrite Hk.
  - rewrite evict_if_needed_eq. simpl.
    rewrite evict_loop_nonpositive by lia. done.
Qed.
End capacity.

(** C1 (amended).  On a cache constructed with any [int] as [max_size], after
    any history of calls, a [set] leaves at most [max (max_size, 1)] entries
    in the store -- hence at most [max_size] whenever [max_size >= 1] -- and
    the number of live (unexpired) entries is at most the number of stored
    entries.  When [max_size] is zero or negative, eviction empties the
    store and stops there, and the entry is then inserted: after the [set]
    the store holds exactly the key just written.  [set] is a total
    function: the eviction loop ends on every input. *)
Theorem set_capacity_bound {V} (options : MemoryCacheOptions.t)
    (history : list (Op V)) (k : string) (v : V) (ttl : seconds)
    (now later : time_point) :
  int_range (MemoryCacheOptions.max_size options) →
  let st' := set k v ttl now (run history (new_cache options)) in
  Z.of_nat (length (lru_ st')) <= Z.max (MemoryCacheOptions.max_size options) 1 ∧
  (1 <= MemoryCacheOptions.max_size options →
   Z.of_nat (live_count later st') <= MemoryCacheOptions.max_size options) ∧
  (live_count later st' ≤ length (lru_ st'))%nat ∧
  (MemoryCacheOptions.max_size options <= 0 → recency st' = [k]).
Proof.
  intros Hm st'.
  pose proof (reachable_wf options history) as Hwf.
  assert (capacity_ok (run history (new_cache options))) as Hcap.
  { apply run_capacity_ok;
      [apply new_cache_wf|done|apply new_cache_capacity_ok]. }
  assert (capacity_ok st') as Hcap'.
  { apply set_capacity_ok; [done|by rewrite run_options|done]. }
  unfold capacity_ok in Hcap'. unfold st' in Hcap' at 2.
  rewrite set_options, run_options in Hcap'. simpl in Hcap'.
  pose proof (live_count_le later st') as Hlive.
  split_and!; [done|lia|done|].
  intros Hle. apply set_nonpositive_max_size; [done..|].
  by rewrite run_options.
Qed.

Lemma set_capacity_bound_witness :
  int_range 2 ∧
  Z.of_nat (length (lru_ (set "c" 3 0 30
    (run [OpSet "a" 1 0 10; OpSet "b" 2 0 20]
       (new_cache (MemoryCacheOptions.mk 2 3600 60)))))) <= 2.
Proof.
  assert (int_range 2) as Hm by (unfold int_range; lia).
  split; [exact Hm|].
  exact (proj1 (set_capacity_bound (MemoryCacheOptions.mk 2 3600 60)
                  [OpSet "a" 1 0 10; OpSet "b" 2 0 20] "c" 3 0 30 30 Hm)).
Defined.

(** C1, as stated, fails for [max_size = 0]: one [set] on a fresh cache
    leaves one live entry, which is more than [max_size] and not an empty
    cache. *)
Lemma capacity_zero_max_size_counterexample :
  let st := set "A" "a" 0 1 (new_cache (MemoryCacheOptions.mk 0 3600 60)) in
  live_count 2 st = 1%nat ∧
  ¬ (Z.of_nat (live_count 2 st) <= MemoryCacheOptions.max_size (options_ st)).
Proof. vm_compute. split; [reflexivity|]. intros H. by apply H. Qed.

(** ** Recency order *)

Section recency_order.
Context {V : Type}.
Implicit Types (st : MemoryCache V) (now : time_point) (k : string)
  (l : list (iterator * Entry V)) (c : gmap string iterator).

Lemma store_wf_node_key c l k it (n : iterator * Entry V) :
  store_wf c l → c !! k = Some it → n ∈ l → n.1 = it ↔ key n.2 = k.
Proof.
  intros Hwf Hc Hn. destruct n as [j e]. simpl.
  destruct (store_wf_deref _ _ _ _ Hwf Hc) as (e' & _ & Hk & Hin).
  split.
  - intros ->. apply list_deref_Some in Hn, Hin; [congruence|apply Hwf..].
  - intros Hke. rewrite <- Hk in Hke.
    by destruct (store_wf_key_inj _ _ _ _ _ _ Hwf Hn Hin Hke).
Qed.

Lemma list_erase_keys l it k :
  (∀ n, n ∈ l → n.1 = it ↔ key n.2 = k) →
  (λ n, key n.2) <$> list_erase l it =
  filter (λ k', k' ≠ k) ((λ n : iterator * Entry V, key n.2) <$> l).
Proof.
  unfold list_erase. induction l as [|n l IH]; intros Hl; [done|].
  rewrite fmap_cons.
  assert (n.1 = it ↔ key n.2 = k) as Hn by (apply Hl; left).
  destruct (decide (n.1 = it)) as [Hit|Hit].
  - rewrite !filter_cons_False by tauto. apply IH.
    intros n' Hn'. apply Hl. by right.
  - rewrite !filter_cons_True by tauto. rewrite fmap_cons. f_equal.
    apply IH. intros n' Hn'. apply Hl. by right.
Qed.

(** The list after a node of the index is moved to the back. *)
Lemma splice_recency c l k it e :
  store_wf c l → c !! k = Some it → list_deref l it = Some e →
  (λ n, key n.2) <$> list_splice_end l it =
  filter (λ k', k' ≠ k) ((λ n, key n.2) <$> l) ++ [k].
Proof.
  intros Hwf Hc He. unfold list_splice_end. rewrite He, fmap_snoc. simpl.
  destruct (store_wf_deref _ _ _ _ Hwf Hc) as (e' & He' & Hk & _).
  assert (e' = e) as -> by congruence. rewrite Hk. f_equal.
  apply list_erase_keys. intros n Hn. by apply (store_wf_node_key c l).
Qed.

Lemma get_hit_recency k now st v :
  cache_wf st → (get k now st).1 = Some v →
  recency (get k now st).2 = filter (λ k', k' ≠ k) (recency st) ++ [k].
Proof.
  intros [Hst _]. unfold get, recency.
  destruct (cache_ st !! k) as [it|] eqn:Hc; [|done].
  destruct (list_deref (lru_ st) it) as [e|] eqn:He; [|done].
  destruct (is_expired e now); [done|]. intros _. simpl.
  by apply (splice_recency (cache_ st) _ _ _ e).
Qed.

Lemma set_existing_recency k v ttl now st :
  cache_wf st → is_Some (cache_ st !! k) →
  recency (set k v ttl now st) = filter (λ k', k' ≠ k) (recency st) ++ [k].
Proof.
  intros [Hst _] [it Hc]. unfold set, recency. rewrite Hc. simpl.
  rewrite recency_assign.
  destruct (store_wf_deref _ _ _ _ Hst Hc) as (e & He & _).
  by apply (splice_recency (cache_ st) _ _ _ e).
Qed.

Lemma set_new_below_capacity k v ttl now st :
  cache_ st !! k = None →
  int_range (MemoryCacheOptions.max_size (options_ st)) →
  Z.of_nat (length (lru_ st)) < MemoryCacheOptions.max_size (options_ st) →
  recency (set k v ttl now st) = recency st ++ [k].
Proof.
  intros Hc Hm Hlen. unfold set, recency. rewrite Hc. simpl.
  rewrite evict_if_needed_eq. simpl.
  rewrite evict_loop_below by (unfold int_range in Hm; lia).
  simpl. by rewrite fmap_snoc.
Qed.

Lemma set_new_at_capacity k v ttl now st :
  cache_ st !! k = None →
  int_range (MemoryCacheOptions.max_size (options_ st)) →
  1 <= MemoryCacheOptions.max_size (options_ st) →
  Z.of_nat (length (lru_ st)) = MemoryCacheOptions.max_size (options_ st) →
  recency (set k v ttl now st) = tail (recency st) ++ [k].
Proof.
  intros Hc Hm H1 Hlen. unfold set, recency. rewrite Hc. simpl.
  rewrite evict_if_needed_eq. simpl.
  destruct (lru_ st) as [|n l] eqn:Hl; [simpl in Hlen; lia|].
  rewrite evict_loop_full by (unfold int_range in Hm; lia).
  simpl. by rewrite fmap_snoc.
Qed.

Lemma recency_length st : length (recency st) = length (lru_ st).
Proof. unfold recency. apply length_fmap. Qed.

Lemma recency_index st k :
  cache_wf st → cache_ st !! k = None ↔ k ∉ recency st.
Proof. intros [Hst _]. by apply store_wf_None. Qed.
End recency_order.

Section lru_scenario.
Context {V : Type}.
Variables (options : MemoryCacheOptions.t).
Variables (a b c d : string) (va vb vc vd : V).
Variables (ttla ttlb ttlc ttld : seconds) (ta tb tc tget td : time_point).
Hypothesis max_size_3 : MemoryCacheOptions.max_size options = 3.
Hypothesis distinct : NoDup [a; b; c; d].

Lemma scenario_distinct :
  a ≠ b ∧ a ≠ c ∧ a ≠ d ∧ b ≠ c ∧ b ≠ d ∧ c ≠ d.
Proof.
  pose proof distinct as Hd.
  apply NoDup_cons in Hd as [Ha Hd]. apply NoDup_cons in Hd as [Hb Hd].
  apply NoDup_cons in Hd as [Hc _].
  repeat (rewrite not_elem_of_cons in Ha); repeat (rewrite not_elem_of_cons in Hb);
  rewrite not_elem_of_cons in Hc. tauto.
Qed.

(** Appending a new key to a cache of capacity 3 that holds fewer than 3
    keys. *)
Lemma scenario_insert (st : MemoryCache V) (keys : list string) k v ttl now :
  cache_wf st → options_ st = options → recency st = keys →
  k ∉ keys → (length keys < 3)%nat →
  cache_wf (set k v ttl now st) ∧ options_ (set k v ttl now st) = options ∧
  recency (set k v ttl now st) = keys ++ [k].
Proof.
  intros Hwf Ho Hr Hk Hlen. split_and!.
  - by apply set_wf.
  - by rewrite set_options.
  - rewrite set_new_below_capacity; rewrite ?Ho, ?max_size_3.
    + by rewrite Hr.
    + apply (recency_index _ _ Hwf). by rewrite Hr.
    + unfold int_range; lia.
    + rewrite <- recency_length, Hr. lia.
Qed.

Lemma scenario_s3 :
  let s3 := set c vc ttlc tc (set b vb ttlb tb (set a va ttla ta
              (new_cache options))) in
  cache_wf s3 ∧ options_ s3 = options ∧ recency s3 = [a; b; c].
Proof.
  destruct scenario_distinct as (? & ? & ? & ? & ? & ?).
  destruct (scenario_insert (new_cache options) [] a va ttla ta)
    as (Hwf1 & Ho1 & Hr1);
    [apply new_cache_wf|done|done|not_in_list|simpl; lia|].
  destruct (scenario_insert _ [a] b vb ttlb tb Hwf1 Ho1 Hr1)
    as (Hwf2 & Ho2 & Hr2); [not_in_list|simpl; lia|].
  by destruct (scenario_insert _ [a; b] c vc ttlc tc Hwf2 Ho2 Hr2)
    as (Hwf3 & Ho3 & Hr3); [not_in_list|simpl; lia|].
Qed.

(** Keys [a], [b], [c] are inserted in that order into a cache of capacity
    3, [get a] hits, and [d] is inserted: [b] is the key evicted. *)
Lemma lru_scenario :
  let s3 := set c vc ttlc tc (set b vb ttlb tb (set a va ttla ta
              (new_cache options))) in
  is_Some (get a tget s3).1 →
  let s5 := set d vd ttld td (get a tget s3).2 in
  recency s5 = [c; a; d] ∧ cache_ s5 !! b = None ∧
  is_Some (cache_ s5 !! a) ∧ is_Some (cache_ s5 !! c) ∧ is_Some (cache_ s5 !! d).
Proof.
  intros s3 [v Hget] s5.
  destruct scenario_distinct as (? & ? & ? & ? & ? & ?).
  destruct scenario_s3 as (Hwf3 & Ho3 & Hr3). fold s3 in Hwf3, Ho3, Hr3.
  assert (cache_wf (get a tget s3).2) as Hwf4 by by apply get_wf.
  assert (recency (get a tget s3).2 = [b; c; a]) as Hr4.
  { rewrite (get_hit_recency _ _ _ v) by done. rewrite Hr3.
    rewrite filter_cons_False by tauto.
    rewrite !filter_cons_True by done. done. }
  assert (options_ (get a tget s3).2 = options) as Ho4 by (by rewrite get_options).
  assert (cache_wf s5) as Hwf5 by by apply set_wf.
  assert (recency s5 = [c; a; d]) as Hr5.
  { unfold s5. rewrite set_new_at_capacity; rewrite ?Ho4, ?max_size_3.
    - by rewrite Hr4.
    - apply (recency_index _ _ Hwf4). rewrite Hr4. not_in_list.
    - unfold int_range; lia.
    - lia.
    - rewrite <- recency_length, Hr4. simpl. lia. }
  split_and!; [done|apply (recency_index _ _ Hwf5); rewrite Hr5; not_in_list|..];
    (apply not_eq_None_Some; rewrite (recency_index _ _ Hwf5), Hr5;
     intros Hni; apply Hni; repeat first [by left | right]).
Qed.
End lru_scenario.

(** C2.  Eviction removes the least-recently-used entry.  A successful [get]
    and a [set] of a key already in the store move that key to the back of
    the recency order (most recently used) and keep the order of the other
    keys; a [set] of a new key into a store holding exactly [max_size]
    entries drops the head of the recency order and appends the new key.
    In particular, with [max_size = 3], after inserting distinct keys [a],
    [b], [c] in that order, a successful [get a] and then [set d], the key
    evicted is [b]: the store holds [c], [a], [d] in that order. *)
Theorem lru_eviction {V} (st : MemoryCache V) (k : string) (now : time_point) :
  cache_wf st →
  (∀ v, (get k now st).1 = Some v →
     recency (get k now st).2 = filter (λ k', k' ≠ k) (recency st) ++ [k]) ∧
  (∀ v ttl, is_Some (cache_ st !! k) →
     recency (set k v ttl now st) = filter (λ k', k' ≠ k) (recency st) ++ [k]) ∧
  (∀ v ttl, cache_ st !! k = None →
     int_range (MemoryCacheOptions.max_size (options_ st)) →
     1 <= MemoryCacheOptions.max_size (options_ st) →
     Z.of_nat (length (lru_ st)) = MemoryCacheOptions.max_size (options_ st) →
     recency (set k v ttl now st) = tail (recency st) ++ [k]) ∧
  (∀ options (a b c d : string) (va vb vc vd : V) (ttla ttlb ttlc ttld : seconds)
     (ta tb tc tget td : time_point),
     MemoryCacheOptions.max_size options = 3 →
     NoDup [a; b; c; d] →
     let s3 := set c vc ttlc tc (set b vb ttlb tb (set a va ttla ta
                 (new_cache options))) in
     is_Some (get a tget s3).1 →
     let s5 := set d vd ttld td (get a tget s3).2 in
     recency s5 = [c; a; d] ∧ cache_ s5 !! b = None ∧
     is_Some (cache_ s5 !! a) ∧ is_Some (cache_ s5 !! c) ∧
     is_Some (cache_ s5 !! d)).
Proof.
  intros Hwf. split_and!.
  - intros v. by apply get_hit_recency.
  - intros v ttl. by apply set_existing_recency.
  - intros v ttl. by apply set_new_at_capacity.
  - intros options a b c d va vb vc vd ttla ttlb ttlc ttld ta tb tc tget td
      Hmax Hnd s3 Hhit s5.
    by apply lru_scenario.
Qed.

Lemma lru_eviction_witness :
  let st : MemoryCache string :=
    run [OpSet "A" "a" 0 1; OpSet "B" "b" 0 2; OpSet "C" "c" 0 3]
      (new_cache (MemoryCacheOptions.mk 3 3600 60)) in
  cache_wf st ∧
  recency (get "A" 4 st).2 = filter (λ k', k' ≠ "A") (recency st) ++ ["A"].
Proof.
  intros st.
  assert (cache_wf st) as Hwf by apply reachable_wf.
  split; [exact Hwf|].
  exact (proj1 (lru_eviction st "A" 4 Hwf) "a" eq_refl).
Defined.

(** ** Entries after [set] *)

Section set_entries.
Context {V : Type}.
Implicit Types (st : MemoryCache V) (now : time_point) (k : string)
  (e : Entry V) (it : iterator).

Lemma set_existing_lru k v ttl now st it e :
  cache_wf st → cache_ st !! k = Some it → list_deref (lru_ st) it = Some e →
  lru_ (set k v ttl now st) =
  list_erase (lru_ st) it ++ [(it, mkEntry k v (set_deadline (options_ st) ttl now))] ∧
  cache_ (set k v ttl now st) = cache_ st.
Proof.
  intros [Hst _] Hc He. unfold set. rewrite Hc. simpl. split; [|done].
  unfold list_splice_end. rewrite He, list_assign_app.
  rewrite list_assign_absent by apply list_erase_ids_absent.
  destruct (store_wf_deref _ _ _ _ Hst Hc) as (e' & He' & Hk & _).
  assert (e' = e) as -> by congruence.
  unfold list_assign. simpl. by rewrite decide_True, Hk.
Qed.

Lemma set_new_lru k v ttl now st :
  cache_ st !! k = None →
  ∃ it, lru_ (set k v ttl now st) =
        lru_ (evict_if_needed st) ++
          [(it, mkEntry k v (set_deadline (options_ st) ttl now))].
Proof.
  intros Hc. unfold set. rewrite Hc. simpl. eexists.
  by rewrite evict_if_needed_eq.
Qed.

Lemma set_find_entry k v ttl now st :
  cache_wf st →
  find_entry (set k v ttl now st) k =
  Some (mkEntry k v (set_deadline (options_ st) ttl now)).
Proof.
  intros Hwf. pose proof (set_wf k v ttl now st Hwf) as Hwf'.
  apply find_entry_Some; [done|]. split; [|done].
  destruct (cache_ st !! k) as [it|] eqn:Hc.
  - destruct (store_wf_deref _ _ _ _ (wf_store _ Hwf) Hc) as (e & He & _).
    destruct (set_existing_lru k v ttl now st it e Hwf Hc He) as [-> _].
    exists it. apply elem_of_app. right. left.
  - destruct (set_new_lru k v ttl now st Hc) as [it ->].
    exists it. apply elem_of_app. right. left.
Qed.

Lemma set_existing_find_entry_other k v ttl now st k' :
  cache_wf st → is_Some (cache_ st !! k) → k' ≠ k →
  find_entry (set k v ttl now st) k' = find_entry st k'.
Proof.
  intros Hwf [it Hc] Hne. pose proof (set_wf k v ttl now st Hwf) as Hwf'.
  pose proof Hwf as [Hst _].
  destruct (store_wf_deref _ _ _ _ Hst Hc) as (e & He & Hk & Hin).
  apply find_entry_ext; [done..|]. intros e' He'.
  destruct (set_existing_lru k v ttl now st it e Hwf Hc He) as [-> _].
  setoid_rewrite elem_of_app. setoid_rewrite elem_of_list_erase.
  setoid_rewrite list_elem_of_singleton. simpl. split.
  - intros (it' & [[_ Hin']|[= -> ->]]); [eauto|]. simpl in He'. congruence.
  - intros [it' Hin']. exists it'. left. split; [|done]. intros ->.
    apply list_deref_Some in Hin'; [|apply Hst]. congruence.
Qed.

Lemma int64_wrap_id n : - 2 ^ 63 <= n <= INT64_MAX → int64_wrap n = n.
Proof.
  unfold int64_wrap, INT64_MAX. intros Hn. rewrite Z.mod_small by lia. lia.
Qed.

(** While the sum stays within [int64_t], [now + ttl] is the sum. *)
Lemma time_point_plus_in_range now t :
  0 <= now → 0 < t → now + t * 1000000000 <= INT64_MAX →
  time_point_plus now t = now + t * 1000000000.
Proof.
  intros Hnow Ht Hmax. unfold time_point_plus, seconds_to_ticks,
    steady_ticks_per_second.
  rewrite (int64_wrap_id (t * 1000000000)) by (unfold INT64_MAX in *; lia).
  apply int64_wrap_id. unfold INT64_MAX in *. lia.
Qed.

(** The deadline [set] computes: none for a TTL of zero or less, and the
    sum [now + ttl] while that sum stays within [int64_t]. *)
Lemma set_deadline_in_range options (ttl : seconds) now (t : seconds) :
  t = (if bool_decide (ttl = 0)
       then MemoryCacheOptions.default_ttl options else ttl) →
  (t <= 0 → set_deadline options ttl now = time_point_zero) ∧
  (0 < t → 0 <= now → now + t * 1000000000 <= INT64_MAX →
   set_deadline options ttl now = now + t * 1000000000).
Proof.
  intros Heq. unfold set_deadline. cbv zeta. rewrite <- Heq. clear Heq. split.
  - intros Ht. by rewrite bool_decide_eq_false_2 by lia.
  - intros Ht Hnow Hmax. rewrite bool_decide_eq_true_2 by lia.
    by apply time_point_plus_in_range.
Qed.

(** The deadline [set] writes is not in the past of the clock reading
    [set] took, while [now + ttl] stays within [int64_t]. *)
Lemma set_deadline_fresh options (ttl : seconds) now (t : seconds)
    (k : string) (v : V) :
  t = (if bool_decide (ttl = 0)
       then MemoryCacheOptions.default_ttl options else ttl) →
  t <= 0 ∨ 0 <= now ∧ now + t * 1000000000 <= INT64_MAX →
  is_expired (mkEntry k v (set_deadline options ttl now)) now = false.
Proof.
  intros Heq Hrange.
  destruct (set_deadline_in_range options ttl now t Heq) as [Hnever Hsum].
  unfold is_expired. simpl. destruct (decide (t <= 0)) as [Ht|Ht].
  - rewrite Hnever by done. by rewrite bool_decide_eq_true_2.
  - rewrite Hsum by lia. unfold time_point_zero.
    rewrite bool_decide_eq_false_2 by lia.
    apply bool_decide_eq_false_2. lia.
Qed.

Lemma live_count_snoc later (l : list (iterator * Entry V)) n :
  length (filter (λ n, is_expired n.2 later = false) (l ++ [n])) =
  (length (filter (λ n, is_expired n.2 later = false) l) +
   if is_expired n.2 later then 0 else 1)%nat.
Proof.
  rewrite filter_app, length_app. f_equal.
  destruct (is_expired n.2 later) eqn:Hn.
  - by rewrite filter_cons_False by (rewrite Hn; done).
  - by rewrite filter_cons_True by done.
Qed.

Lemma set_existing_live_count k v ttl now st e later :
  cache_wf st → find_entry st k = Some e →
  (live_count later (set k v ttl now st) +
     (if is_expired e later then 0 else 1) =
   live_count later st +
     (if is_expired (mkEntry k v (set_deadline (options_ st) ttl now)) later
      then 0 else 1))%nat.
Proof.
  intros Hwf (it & Hc & He)%find_entry_index. unfold live_count.
  destruct (set_existing_lru k v ttl now st it e Hwf Hc He) as [-> _].
  rewrite live_count_snoc. simpl.
  rewrite <- (list_erase_snoc_perm (lru_ st) it e) at 2;
    [|apply Hwf|by apply list_deref_elem_of].
  rewrite live_count_snoc. simpl. lia.
Qed.
End set_entries.




(** C7 (amended).  A [set] of a key that is already in the store replaces
    the value and the deadline of its entry in place (the index still
    designates the same node), moves the key to the back of the recency
    order, keeps the number of stored entries, and leaves every other entry
    as it was: nothing is evicted.  The number of live (unexpired) entries
    changes only by the entry of the key: it loses one if the overwritten
    entry was unexpired and gains one if the new entry is unexpired.  As
    long as the new deadline, the clock reading plus the TTL in ticks, is
    within the range of the clock's [int64_t] tick count (or there is no
    deadline), the number of live entries is therefore unchanged when the
    overwritten entry was unexpired, and grows by one when the overwritten
    entry was expired but not yet swept. *)
Theorem set_overwrite {V} (st : MemoryCache V) (k : string) (v : V)
    (ttl : seconds) (now : time_point) (e : Entry V) :
  cache_wf st → find_entry st k = Some e →
  let st' := set k v ttl now st in
  let t := if bool_decide (ttl = 0)
           then MemoryCacheOptions.default_ttl (options_ st) else ttl in
  find_entry st' k = Some (mkEntry k v (set_deadline (options_ st) ttl now)) ∧
  recency st' = filter (λ k', k' ≠ k) (recency st) ++ [k] ∧
  length (lru_ st') = length (lru_ st) ∧
  cache_ st' = cache_ st ∧
  (∀ k', k' ≠ k → find_entry st' k' = find_entry st k') ∧
  (live_count now st' + (if is_expired e now then 0 else 1) =
   live_count now st +
     (if is_expired (mkEntry k v (set_deadline (options_ st) ttl now)) now
      then 0 else 1))%nat ∧
  (t <= 0 ∨ 0 <= now ∧ now + t * 1000000000 <= INT64_MAX →
   live_count now st' =
     (live_count now st + if is_expired e now then 1 else 0)%nat).
Proof.
  intros Hwf Hfind st' t. pose proof Hfind as (it & Hc & He)%find_entry_index.
  destruct (set_existing_lru k v ttl now st it e Hwf Hc He) as [Hlru Hcache].
  pose proof (set_existing_live_count k v ttl now st e now Hwf Hfind) as Hlive.
  fold st' in Hlive.
  split_and!.
  - by apply set_find_entry.
  - by apply set_existing_recency.
  - unfold st'. rewrite Hlru, length_app. simpl.
    rewrite <- (list_erase_length (lru_ st) it e);
      [lia|apply Hwf|by apply list_deref_elem_of].
  - done.
  - intros k' Hne. by apply set_existing_find_entry_other.
  - done.
  - intros Hrange.
    rewrite (set_deadline_fresh (options_ st) ttl now t k v eq_refl Hrange)
      in Hlive.
    destruct (is_expired e now); lia.
Qed.

Lemma set_overwrite_witness :
  let st : MemoryCache string :=
    run [OpSet "A" "a" 0 1; OpSet "B" "b" 0 2]
      (new_cache MemoryCacheOptions.default) in
  cache_wf st ∧
  find_entry st "A" = Some (mkEntry "A" "a" 3600000000001) ∧
  (3600 <= 0 ∨ 0 <= 3 ∧ 3 + 3600 * 1000000000 <= INT64_MAX) ∧
  length (lru_ (set "A" "z" 0 3 st)) = length (lru_ st) ∧
  live_count 3 (set "A" "z" 0 3 st) =
    (live_count 3%Z st +
     if is_expired (mkEntry "A" "a" 3600000000001%Z) 3%Z then 1 else 0)%nat.
Proof.
  intros st.
  assert (cache_wf st) as Hwf by apply reachable_wf.
  assert (find_entry st "A" = Some (mkEntry "A" "a" 3600000000001)) as Hfind
    by reflexivity.
  assert (3600 <= 0 ∨ 0 <= 3 ∧ 3 + 3600 * 1000000000 <= INT64_MAX) as Hrange
    by (right; split; vm_compute; discriminate).
  split; [exact Hwf|]. split; [exact Hfind|]. split; [exact Hrange|].
  destruct (set_overwrite st "A" "z" 0 3 _ Hwf Hfind)
    as (_ & _ & Hlen & _ & _ & _ & Hlive).
  split; [exact Hlen|exact (Hlive Hrange)].
Defined.

(** C7, as stated, fails when the key being overwritten is expired but not
    yet swept: the store holds no live entry before the [set] and one
    after it.  It also fails when a live key is overwritten with a TTL
    whose tick count does not fit [int64_t]: the new deadline wraps into
    the past, and the store holds one live entry before the [set] and none
    after it. *)
Lemma set_overwrite_live_count_counterexample :
  let st : MemoryCache string :=
    set "A" "a" 1 500 (new_cache MemoryCacheOptions.default) in
  let now := 2000000000 in
  let early := 600 in
  cache_ st !! "A" = Some 0%nat ∧
  live_count now st = 0%nat ∧
  live_count now (set "A" "b" 1 now st) = 1%nat ∧
  live_count now (set "A" "b" 1 now st) ≠ live_count now st ∧
  live_count early st = 1%nat ∧
  live_count early (set "A" "b" 9223372036854775807 early st) = 0%nat.
Proof. vm_compute. done. Qed.

(** ** Reads: [get], [exists] and [get_many] *)

Section reads.
Context {V : Type}.
Implicit Types (st : MemoryCache V) (now : time_point) (k : string)
  (e : Entry V) (it : iterator).

Lemma get_result k now st : (get k now st).1 = live_value st k now.
Proof.
  unfold get, live_value, find_entry.
  destruct (cache_ st !! k) as [it|]; simpl; [|done].
  destruct (list_deref (lru_ st) it) as [e|]; simpl; [|done].
  by destruct (is_expired e now).
Qed.

Lemma exists_result k now st :
  (exists_ k now st).1 =
  match find_entry st k with
  | Some e => negb (is_expired e now)
  | None => false
  end.
Proof.
  unfold exists_, find_entry.
  destruct (cache_ st !! k) as [it|]; simpl; [|done].
  by destruct (list_deref (lru_ st) it).
Qed.

Lemma is_expired_mono e now later :
  now <= later → is_expired e now = true → is_expired e later = true.
Proof.
  unfold is_expired. case_bool_decide; [done|].
  rewrite !bool_decide_eq_true. lia.
Qed.

Lemma is_expired_past e now :
  expires_at e ≠ time_point_zero → expires_at e < now → is_expired e now = true.
Proof.
  intros Hfin Hpast. unfold is_expired.
  rewrite bool_decide_eq_false_2 by done. apply bool_decide_eq_true. lia.
Qed.

(** What a [get] leaves in the store: the entry asked for stays unless it
    was expired, every other entry stays. *)
Lemma get_find_entry k now st k' :
  cache_wf st →
  find_entry (get k now st).2 k' =
  if decide (k' = k) then
    match find_entry st k with
    | Some e => if is_expired e now then None else Some e
    | None => None
    end
  else find_entry st k'.
Proof.
  intros Hwf. destruct (find_entry st k) as [e|] eqn:Hfind.
  - destruct (is_expired e now) eqn:Hexp.
    + rewrite (get_expired st k now e Hfind Hexp). simpl.
      rewrite count_miss_find_entry, remove_find_entry by done. done.
    + destruct (get_hit st k now e Hfind Hexp) as (it & Hc & ->). simpl.
      rewrite count_hit_find_entry.
      assert (list_erase (lru_ st) it ++ [(it, e)] ≡ₚ lru_ st) as Hperm.
      { apply find_entry_index in Hfind as (it' & Hc' & He).
        assert (it' = it) as -> by congruence.
        apply list_erase_snoc_perm; [apply Hwf|by apply list_deref_elem_of]. }
      assert (cache_wf (with_store st (cache_ st)
                          (list_erase (lru_ st) it ++ [(it, e)]))) as Hwf'.
      { destruct Hwf as [Hst Hfr]. apply with_store_wf.
        - apply store_wf_perm with (lru_ st); [done|done].
        - by rewrite Hperm. }
      transitivity (find_entry st k').
      * apply find_entry_ext; [done..|]. intros e' _. simpl.
        by setoid_rewrite Hperm.
      * case_decide; by subst.
  - apply find_entry_None in Hfind; [|done].
    rewrite (get_absent st k now Hfind). simpl.
    rewrite count_miss_find_entry. case_decide; [|done]. subst.
    by apply find_entry_None.
Qed.

Lemma live_value_unique st k now later v v' :
  live_value st k now = Some v → live_value st k later = Some v' → v = v'.
Proof.
  unfold live_value. destruct (find_entry st k) as [e|]; simpl; [|done].
  destruct (is_expired e now), (is_expired e later); congruence.
Qed.

(** A [get] never makes a value appear. *)
Lemma live_value_get_sub k now st k' later v :
  cache_wf st →
  live_value (get k now st).2 k' later = Some v → live_value st k' later = Some v.
Proof.
  intros Hwf. unfold live_value. rewrite get_find_entry by done.
  case_decide; [subst k'|done].
  destruct (find_entry st k) as [e|]; [|done].
  by destruct (is_expired e now).
Qed.

(** Later readings of a monotone clock see what an earlier [get] left. *)
Lemma live_value_get_mono k now st k' later :
  cache_wf st → now <= later →
  live_value (get k now st).2 k' later = live_value st k' later.
Proof.
  intros Hwf Hle. unfold live_value. rewrite get_find_entry by done.
  case_decide; [subst k'|done].
  destruct (find_entry st k) as [e|]; [|done].
  destruct (is_expired e now) eqn:Hexp; [|done]. simpl.
  by rewrite (is_expired_mono e now later).
Qed.

Lemma get_many_loop_sound keys result st k v :
  cache_wf st →
  (get_many_loop keys result st).1 !! k = Some v →
  result !! k = Some v ∨
  ∃ now, (k, now) ∈ keys ∧ live_value st k now = Some v.
Proof.
  revert result st. induction keys as [|[k0 t0] keys IH]; intros result st Hwf;
    simpl; [by left|].
  pose proof (get_wf k0 t0 st Hwf) as Hwf'.
  pose proof (get_result k0 t0 st) as Hres.
  destruct (get k0 t0 st) as [o st'] eqn:Hget. simpl in *.
  intros [Hacc|(now & Hin & Hlive)]%IH; [|right|done].
  - destruct o as [v0|]; [|by left].
    apply lookup_insert_Some in Hacc as [[<- <-]|[_ Hacc]]; [|by left].
    right. exists t0. split; [left|done].
  - exists now. split; [by right|].
    replace st' with (get k0 t0 st).2 in Hlive by by rewrite Hget.
    by apply live_value_get_sub in Hlive.
Qed.

Lemma get_many_loop_stable keys result st k v :
  cache_wf st → result !! k = Some v →
  (∀ now v', live_value st k now = Some v' → v' = v) →
  (get_many_loop keys result st).1 !! k = Some v.
Proof.
  revert result st. induction keys as [|[k0 t0] keys IH];
    intros result st Hwf Hacc Hval; simpl; [done|].
  pose proof (get_wf k0 t0 st Hwf) as Hwf'.
  pose proof (get_result k0 t0 st) as Hres.
  destruct (get k0 t0 st) as [o st'] eqn:Hget. simpl in *.
  apply IH; [done| |].
  - destruct o as [v0|]; [|done].
    destruct (decide (k0 = k)) as [->|Hne].
    + rewrite lookup_insert_eq. f_equal. by apply (Hval t0).
    + by rewrite lookup_insert_ne.
  - intros now v' Hlive. apply (Hval now).
    replace st' with (get k0 t0 st).2 in Hlive by by rewrite Hget.
    by apply live_value_get_sub in Hlive.
Qed.

Lemma get_many_loop_complete keys result st k now v :
  cache_wf st → StronglySorted Z.le keys.*2 →
  (k, now) ∈ keys → live_value st k now = Some v →
  (get_many_loop keys result st).1 !! k = Some v.
Proof.
  revert result st. induction keys as [|[k0 t0] keys IH];
    intros result st Hwf Hsorted Hin Hlive; simpl.
  { by apply elem_of_nil in Hin. }
  rewrite fmap_cons in Hsorted. apply StronglySorted_cons in Hsorted as [Hle Hsorted].
  pose proof (get_wf k0 t0 st Hwf) as Hwf'.
  pose proof (get_result k0 t0 st) as Hres.
  destruct (get k0 t0 st) as [o st'] eqn:Hget. simpl in *.
  assert (st' = (get k0 t0 st).2) as Hst' by by rewrite Hget.
  apply elem_of_cons in Hin as [[= <- <-]|Hin].
  - rewrite Hres, Hlive. apply get_many_loop_stable; [done|apply lookup_insert_eq|].
    intros later v' Hlive'. rewrite Hst' in Hlive'.
    apply live_value_get_sub in Hlive'; [|done].
    by apply (live_value_unique st k later now).
  - apply IH; [done..|].
    rewrite Hst', live_value_get_mono; [done..|].
    rewrite Forall_forall in Hle. apply Hle.
    by apply (list_elem_of_fmap_2 snd) in Hin.
Qed.

Lemma get_many_spec_lookup keys st k v :
  get_many_spec keys st !! k = Some v ↔
  ∃ now, (k, now) ∈ keys ∧ live_value st k now = Some v.
Proof.
  unfold get_many_spec. induction keys as [|[k0 t0] keys IH]; simpl.
  - rewrite lookup_empty. split; [done|].
    by intros (now & Hin%elem_of_nil & _).
  - setoid_rewrite elem_of_cons.
    destruct (live_value st k0 t0) as [v0|] eqn:Hlive.
    + rewrite lookup_insert_Some, IH. split.
      * intros [[<- <-]|[Hne (now & Hin & Hl)]]; [by eauto|eauto].
      * intros (now & [[= -> ->]|Hin] & Hl).
        -- left. split; [done|congruence].
        -- destruct (decide (k0 = k)) as [->|Hne]; [|by eauto].
           left. split; [done|]. by apply (live_value_unique st k t0 now).
    + rewrite IH. split.
      * intros (now & Hin & Hl). eauto.
      * intros (now & [[= -> ->]|Hin] & Hl); [congruence|eauto].
Qed.

Lemma get_many_lookup keys st k v :
  cache_wf st → StronglySorted Z.le keys.*2 →
  (get_many keys st).1 !! k = Some v ↔
  ∃ now, (k, now) ∈ keys ∧ live_value st k now = Some v.
Proof.
  intros Hwf Hsorted. unfold get_many. split.
  - intros [Hacc|?]%get_many_loop_sound; [|done..].
    by rewrite lookup_empty in Hacc.
  - intros (now & Hin & Hlive). by apply get_many_loop_complete with now.
Qed.

Lemma get_many_loop_state keys result st :
  (get_many_loop keys result st).2 = run ((λ '(k, now), OpGet k now) <$> keys) st.
Proof.
  revert result st. induction keys as [|[k0 t0] keys IH]; intros result st;
    simpl; [done|].
  destruct (get k0 t0 st) as [o st'] eqn:Hget. simpl. by rewrite IH.
Qed.
End reads.

(** C3.  A key whose entry is still in the store but has a finite deadline
    strictly in the past is logically absent: [get] returns no value,
    [exists] returns false, and no [get_many] issued from then on (the
    clock does not go back) returns a value for it. *)
Theorem expired_never_returned {V} (st : MemoryCache V) (k : string)
    (e : Entry V) (now : time_point) :
  cache_wf st → find_entry st k = Some e →
  expires_at e ≠ time_point_zero → expires_at e < now →
  (get k now st).1 = None ∧
  (exists_ k now st).1 = false ∧
  (∀ keys : list (string * time_point),
     Forall (λ kt, now <= kt.2) keys → (get_many keys st).1 !! k = None).
Proof.
  intros Hwf Hfind Hfin Hpast.
  pose proof (is_expired_past e now Hfin Hpast) as Hexp. split_and!.
  - rewrite get_result. unfold live_value. rewrite Hfind. simpl. by rewrite Hexp.
  - rewrite exists_result, Hfind. by rewrite Hexp.
  - intros keys Hkeys. apply eq_None_not_Some. intros [v Hv].
    unfold get_many in Hv.
    apply get_many_loop_sound in Hv as [Hv|(later & Hin & Hlive)]; [| |done].
    + by rewrite lookup_empty in Hv.
    + rewrite Forall_forall in Hkeys. specialize (Hkeys _ Hin). simpl in Hkeys.
      unfold live_value in Hlive. rewrite Hfind in Hlive. simpl in Hlive.
      by rewrite (is_expired_mono e now later) in Hlive.
Qed.

Lemma expired_never_returned_witness :
  let st : MemoryCache string :=
    set "A" "a" 1 500 (new_cache MemoryCacheOptions.default) in
  let e := mkEntry "A" "a" 1000000500 in
  cache_wf st ∧ find_entry st "A" = Some e ∧
  expires_at e ≠ time_point_zero ∧ expires_at e < 2000000000 ∧
  (get "A" 2000000000 st).1 = None.
Proof.
  intros st e.
  assert (cache_wf st) as Hwf by apply set_wf, new_cache_wf.
  assert (find_entry st "A" = Some e) as Hfind by reflexivity.
  assert (expires_at e ≠ time_point_zero) as Hfin by (simpl; discriminate).
  assert (expires_at e < 2000000000) as Hpast by (simpl; lia).
  split_and!; [exact Hwf|exact Hfind|exact Hfin|exact Hpast|].
  exact (proj1 (expired_never_returned st "A" e 2000000000 Hwf Hfind Hfin Hpast)).
Defined.

(** C6 (amended).  A [get] that finds the key but finds its entry expired
    erases the entry and its index record, counts a miss, and returns no
    value: it does exactly what a [get] on the cache without that entry
    does, and leaves the other entries alone.  An [exists] that finds the
    key but finds its entry expired returns false, as for a key that is not
    found, and changes nothing: the expired entry stays in the store. *)
Theorem expired_lookup {V} (st : MemoryCache V) (k : string) (e : Entry V)
    (now : time_point) :
  cache_wf st → find_entry st k = Some e → is_expired e now = true →
  get k now st = (None, count_miss (remove k st).2) ∧
  get k now st = get k now (remove k st).2 ∧
  find_entry (get k now st).2 k = None ∧
  (∀ k', k' ≠ k → find_entry (get k now st).2 k' = find_entry st k') ∧
  misses_ (get k now st).2 = fetch_add (misses_ st) 1 ∧
  hits_ (get k now st).2 = hits_ st ∧
  exists_ k now st = (false, st).
Proof.
  intros Hwf Hfind Hexp.
  pose proof (get_expired st k now e Hfind Hexp) as Hget.
  pose proof Hfind as (it & Hc & He)%find_entry_index.
  split_and!.
  - done.
  - rewrite Hget. symmetry. apply get_absent.
    rewrite (remove_present _ _ _ Hc). simpl. apply lookup_delete_eq.
  - rewrite get_find_entry by done. rewrite decide_True by done.
    by rewrite Hfind, Hexp.
  - intros k' Hne. rewrite get_find_entry by done. by rewrite decide_False.
  - rewrite Hget, (remove_present _ _ _ Hc). done.
  - rewrite Hget, (remove_present _ _ _ Hc). done.
  - unfold exists_. by rewrite Hc, He, Hexp.
Qed.

Lemma expired_lookup_witness :
  let st : MemoryCache string :=
    set "A" "a" 1 500 (new_cache MemoryCacheOptions.default) in
  let e := mkEntry "A" "a" 1000000500 in
  cache_wf st ∧ find_entry st "A" = Some e ∧ is_expired e 2000000000 = true ∧
  get "A" 2000000000 st = (None, count_miss (remove "A" st).2).
Proof.
  intros st e.
  assert (cache_wf st) as Hwf by apply set_wf, new_cache_wf.
  assert (find_entry st "A" = Some e) as Hfind by reflexivity.
  assert (is_expired e 2000000000 = true) as Hexp by reflexivity.
  split_and!; [exact Hwf|exact Hfind|exact Hexp|].
  exact (proj1 (expired_lookup st "A" e 2000000000 Hwf Hfind Hexp)).
Defined.

(** C6, as stated, fails for [exists]: the call finds an expired entry,
    answers false, and the entry is still in the store afterwards. *)
Lemma exists_keeps_expired_counterexample :
  let st : MemoryCache string :=
    set "A" "a" 1 500 (new_cache MemoryCacheOptions.default) in
  let now := 2000000000 in
  let e := mkEntry "A" "a" 1000000500 in
  find_entry st "A" = Some e ∧ is_expired e now = true ∧
  (exists_ "A" now st).1 = false ∧
  find_entry (exists_ "A" now st).2 "A" = Some e ∧
  find_entry (exists_ "A" now st).2 "A" ≠ None ∧
  length (lru_ (exists_ "A" now st).2) = 1%nat.
Proof. vm_compute. done. Qed.



(** ** Statistics *)

Section statistics.
Context {V : Type}.
Implicit Types (st : MemoryCache V) (now : time_point) (k : string)
  (l : list (iterator * Entry V)).

Lemma expired_count_fold now l (acc : Z) :
  foldl (λ cnt n, if is_expired n.2 now then cnt + 1 else cnt) acc l =
  acc + Z.of_nat (length (filter (λ n, is_expired n.2 now = true) l)).
Proof.
  revert acc. induction l as [|n l IH]; intros acc; simpl; [lia|].
  rewrite IH. destruct (is_expired n.2 now) eqn:Hn.
  - rewrite filter_cons_True by done. simpl length. lia.
  - rewrite filter_cons_False by (rewrite Hn; done). lia.
Qed.

Lemma live_expired_length now st :
  (live_count now st + expired_entries now st = length (lru_ st))%nat.
Proof.
  unfold live_count, expired_entries.
  induction (lru_ st) as [|n l IH]; [done|].
  destruct (is_expired n.2 now) eqn:Hn.
  - rewrite filter_cons_False by (rewrite Hn; done).
    rewrite filter_cons_True by done. simpl. lia.
  - rewrite filter_cons_True by done.
    rewrite filter_cons_False by (rewrite Hn; done). simpl. lia.
Qed.

Lemma counters_step_same st st' :
  hits_ st' = hits_ st → misses_ st' = misses_ st → counters_step st st' 0.
Proof. unfold counters_step. intros -> ->. lia. Qed.

Lemma counters_step_trans st1 st2 st3 g1 g2 :
  0 <= g1 → 0 <= g2 →
  counters_step st1 st2 g1 → counters_step st2 st3 g2 →
  counters_step st1 st3 (g1 + g2).
Proof.
  unfold counters_step. intros Hg1 Hg2 H12 H23 ? ? ? ?.
  destruct H12 as [? ?]; [lia..|]. destruct H23 as [? ?]; lia.
Qed.

Lemma get_counters k now st : counters_step st (get k now st).2 1.
Proof.
  unfold counters_step, get. intros ? ? ? ?.
  repeat case_match; simpl; rewrite ?fetch_add_1 by lia; lia.
Qed.

Lemma set_counters k v ttl now st : counters_step st (set k v ttl now st) 0.
Proof.
  apply counters_step_same; unfold set; case_match; simpl; try done;
    by rewrite evict_if_needed_eq.
Qed.

Lemma remove_counters k st : counters_step st (remove k st).2 0.
Proof. apply counters_step_same; unfold remove; by case_match. Qed.

Lemma cleanup_tick_counters now st : counters_step st (cleanup_tick now st) 0.
Proof.
  apply counters_step_same; unfold cleanup_tick; case_match; try done;
    by rewrite cleanup_expired_eq.
Qed.

Lemma get_many_loop_counters keys result st :
  counters_step st (get_many_loop keys result st).2 (Z.of_nat (length keys)).
Proof.
  revert result st. induction keys as [|[k now] keys IH]; intros result st.
  - by apply counters_step_same.
  - simpl get_many_loop. pose proof (get_counters k now st) as Hget.
    destruct (get k now st) as [o st']. simpl in Hget.
    replace (Z.of_nat (length ((k, now) :: keys)))
      with (1 + Z.of_nat (length keys)) by (simpl length; lia).
    eapply counters_step_trans; [lia|lia|done|apply IH].
Qed.

Lemma set_many_counters items ttl st : counters_step st (set_many items ttl st) 0.
Proof.
  revert st. induction items as [|[[k v] now] items IH]; intros st; simpl.
  - by apply counters_step_same.
  - apply (counters_step_trans st (set k v ttl now st) _ 0 0);
      [lia|lia|apply set_counters|apply IH].
Qed.

Lemma delete_many_loop_counters keys count st :
  counters_step st (delete_many_loop keys count st).2 0.
Proof.
  revert count st. induction keys as [|k keys IH]; intros count st; simpl.
  - by apply counters_step_same.
  - pose proof (remove_counters k st) as Hrm.
    destruct (remove k st) as [b st']. simpl in Hrm.
    apply (counters_step_trans st st' _ 0 0); [lia|lia|done|apply IH].
Qed.

Lemma op_gets_nonneg (op : Op V) : 0 <= op_gets op.
Proof. destruct op; simpl; lia. Qed.

Lemma run_gets_nonneg (ops : list (Op V)) : 0 <= run_gets ops.
Proof.
  induction ops as [|op ops IH]; simpl; [lia|].
  pose proof (op_gets_nonneg op). lia.
Qed.

Lemma step_counters st op : counters_step st (step st op) (op_gets op).
Proof.
  destruct op; simpl.
  - apply get_counters.
  - apply set_counters.
  - apply remove_counters.
  - rewrite exists_state. by apply counters_step_same.
  - by apply counters_step_same.
  - by apply counters_step_same.
  - apply cleanup_tick_counters.
  - apply get_many_loop_counters.
  - apply set_many_counters.
  - apply delete_many_loop_counters.
Qed.

Lemma run_counters ops st : counters_step st (run ops st) (run_gets ops).
Proof.
  revert st. induction ops as [|op ops IH]; intros st; simpl.
  - by apply counters_step_same.
  - eapply counters_step_trans;
      [apply op_gets_nonneg|apply run_gets_nonneg|apply step_counters|apply IH].
Qed.
End statistics.

(** C5 (amended).  [stats] reports as [size] the number of entries
    physically present in the store, expired-but-unswept entries included,
    and as [expired_count] the number of those entries that are expired at
    the time of the call; the number of unexpired entries is the difference
    of the two.  The store is taken to hold fewer than 2^31 entries, so that
    the conversion of its size to [int] is exact. *)
Theorem stats_counts {V} (st : MemoryCache V) (now : time_point) :
  Z.of_nat (length (lru_ st)) < 2 ^ 31 →
  CacheStats.size (stats now st) = Z.of_nat (length (lru_ st)) ∧
  CacheStats.expired_count (stats now st) = Z.of_nat (expired_entries now st) ∧
  CacheStats.size (stats now st) =
    Z.of_nat (live_count now st) + CacheStats.expired_count (stats now st) ∧
  CacheStats.max_size (stats now st) = MemoryCacheOptions.max_size (options_ st) ∧
  CacheStats.hits (stats now st) = hits_ st ∧
  CacheStats.misses (stats now st) = misses_ st.
Proof.
  intros Hlen. unfold stats. simpl.
  rewrite static_cast_int_id by (unfold int_range; lia).
  rewrite expired_count_fold. fold (expired_entries now st).
  pose proof (live_expired_length now st).
  split_and!; try done; lia.
Qed.

Lemma stats_counts_witness :
  let st : MemoryCache string :=
    set "A" "a" 1 500 (new_cache MemoryCacheOptions.default) in
  Z.of_nat (length (lru_ st)) < 2 ^ 31 ∧
  CacheStats.size (stats 2000000000 st) = Z.of_nat (length (lru_ st)).
Proof.
  intros st.
  assert (Z.of_nat (length (lru_ st)) < 2 ^ 31) as Hlen by (vm_compute; reflexivity).
  split; [exact Hlen|].
  exact (proj1 (stats_counts st 2000000000 Hlen)).
Defined.

(** C5, as stated, fails: with one entry in the store that is expired but
    not yet swept, [stats] reports a [size] of 1 although no entry is
    live. *)
Lemma stats_size_counts_expired_counterexample :
  let st : MemoryCache string :=
    set "A" "a" 1 500 (new_cache MemoryCacheOptions.default) in
  let now := 2000000000 in
  live_count now st = 0%nat ∧
  expired_entries now st = 1%nat ∧
  CacheStats.size (stats now st) = 1 ∧
  CacheStats.size (stats now st) ≠ Z.of_nat (live_count now st).
Proof. vm_compute. done. Qed.

(** C8.  [clear] empties the recency list and the key index, so that
    [stats] then reports size 0, and leaves the hit and miss counters as
    they were.  Over any run of the instance the two counters never
    decrease, as long as the number of [get] calls keeps them within the
    range of [int64_t]. *)
Theorem clear_keeps_counters {V} (st : MemoryCache V) (now : time_point)
    (ops : list (Op V)) :
  - 2 ^ 63 <= hits_ st → - 2 ^ 63 <= misses_ st →
  hits_ st + run_gets ops <= INT64_MAX →
  misses_ st + run_gets ops <= INT64_MAX →
  lru_ (clear st) = [] ∧ cache_ (clear st) = ∅ ∧
  CacheStats.size (stats now (clear st)) = 0 ∧
  CacheStats.expired_count (stats now (clear st)) = 0 ∧
  CacheStats.hits (stats now (clear st)) = hits_ st ∧
  CacheStats.misses (stats now (clear st)) = misses_ st ∧
  hits_ st <= hits_ (run ops st) ∧
  misses_ st <= misses_ (run ops st).
Proof.
  intros Hh Hm Hhb Hmb.
  destruct (run_counters ops st Hh Hm Hhb Hmb) as [[? _] [? _]].
  split_and!; done.
Qed.

Lemma clear_keeps_counters_witness :
  let st : MemoryCache string :=
    run [OpSet "A" "a" 0 1; OpGet "A" 2; OpGet "B" 3]
      (new_cache MemoryCacheOptions.default) in
  let ops : list (Op string) := [OpClear; OpGet "A" 4; OpSet "A" "b" 0 5; OpGet "A" 6] in
  (- 2 ^ 63 <= hits_ st ∧ - 2 ^ 63 <= misses_ st ∧
   hits_ st + run_gets ops <= INT64_MAX ∧
   misses_ st + run_gets ops <= INT64_MAX) ∧
  CacheStats.hits (stats 4 (clear st)) = hits_ st ∧
  hits_ st <= hits_ (run ops st).
Proof.
  intros st ops.
  assert (- 2 ^ 63 <= hits_ st) as Hh by (vm_compute; discriminate).
  assert (- 2 ^ 63 <= misses_ st) as Hm by (vm_compute; discriminate).
  assert (hits_ st + run_gets ops <= INT64_MAX) as Hhb by (vm_compute; discriminate).
  assert (misses_ st + run_gets ops <= INT64_MAX) as Hmb by (vm_compute; discriminate).
  split; [split_and!; [exact Hh|exact Hm|exact Hhb|exact Hmb]|].
  pose proof (clear_keeps_counters st 4 ops Hh Hm Hhb Hmb) as Hclear.
  split; [exact (proj1 (proj2 (proj2 (proj2 (proj2 Hclear)))))|].
  exact (proj1 (proj2 (proj2 (proj2 (proj2 (proj2 (proj2 Hclear))))))).
Defined.

(** ** Bulk operations *)

Section bulk.
Context {V : Type}.
Implicit Types (st : MemoryCache V) (now : time_point) (k : string).

Lemma present_keys_cons_in k (keys : list string) (c : gmap string iterator) :
  is_Some (c !! k) →
  size (list_to_set (k :: keys) ∩ dom c : gset string) =
  S (size (list_to_set keys ∩ dom (delete k c) : gset string)).
Proof.
  intros Hk%elem_of_dom.
  replace (list_to_set (k :: keys) ∩ dom c : gset string)
    with ({[k]} ∪ (list_to_set keys ∩ dom (delete k c)) : gset string).
  - rewrite size_union, size_singleton; [done|].
    rewrite dom_delete_L. apply disjoint_singleton_l.
    rewrite elem_of_intersection, elem_of_difference, elem_of_singleton. tauto.
  - apply set_eq. intros x. rewrite dom_delete_L. simpl.
    rewrite !elem_of_union, !elem_of_intersection, elem_of_difference,
      elem_of_union, !elem_of_singleton.
    destruct (decide (x = k)) as [->|]; tauto.
Qed.

Lemma present_keys_cons_out k (keys : list string) (c : gmap string iterator) :
  c !! k = None →
  size (list_to_set (k :: keys) ∩ dom c : gset string) =
  size (list_to_set keys ∩ dom c : gset string).
Proof.
  intros Hk%not_elem_of_dom. f_equal. apply set_eq. intros x. simpl.
  rewrite !elem_of_intersection, elem_of_union, elem_of_singleton.
  destruct (decide (x = k)) as [->|]; tauto.
Qed.

Lemma delete_many_loop_count keys count st :
  (delete_many_loop keys count st).1 = count + delete_many_spec keys st.
Proof.
  unfold delete_many_spec. revert count st.
  induction keys as [|k keys IH]; intros count st.
  - simpl. rewrite intersection_empty_l_L, size_empty. lia.
  - simpl delete_many_loop. destruct (cache_ st !! k) as [it|] eqn:Hc.
    + rewrite (remove_present _ _ _ Hc), IH. simpl cache_.
      rewrite (present_keys_cons_in k keys (cache_ st)) by done. lia.
    + rewrite (remove_absent _ _ Hc), IH.
      by rewrite (present_keys_cons_out k keys (cache_ st)).
Qed.

Lemma delete_many_loop_state keys count st :
  (delete_many_loop keys count st).2 = run (OpRemove <$> keys) st.
Proof.
  revert count st. induction keys as [|k keys IH]; intros count st;
    simpl; [done|].
  destruct (remove k st) as [b st']. simpl. by rewrite IH.
Qed.

Lemma remove_index k st k' :
  cache_ (remove k st).2 !! k' =
  if decide (k' = k) then None else cache_ st !! k'.
Proof.
  unfold remove. destruct (cache_ st !! k) eqn:Hc; simpl.
  - case_decide; [subst; apply lookup_delete_eq|by apply lookup_delete_ne].
  - case_decide; by subst.
Qed.

Lemma delete_many_loop_index keys count st k :
  cache_ (delete_many_loop keys count st).2 !! k =
  if decide (k ∈ keys) then None else cache_ st !! k.
Proof.
  revert count st. induction keys as [|k0 keys IH]; intros count st; simpl.
  - done.
  - pose proof (remove_index k0 st k) as Hrm.
    destruct (remove k0 st) as [b st']. simpl in Hrm. rewrite IH, Hrm.
    destruct (decide (k = k0)) as [->|Hne].
    + rewrite (decide_True (P := k0 ∈ k0 :: keys)) by left. by case_decide.
    + destruct (decide (k ∈ keys)) as [Hin|Hni].
      * by rewrite decide_True by by right.
      * rewrite decide_False; [done|]. by intros [?|?]%elem_of_cons.
Qed.
End bulk.

(** C9.  The bulk operations are the single-key operations iterated.  On a
    cache whose steady clock does not go back between the calls,
    [get_many keys] returns the map that holds exactly the keys asked for
    that were present and unexpired, each with its value -- a key that is
    missing or expired is left out, and nothing fails -- and leaves the
    cache as the successive [get] calls do.  [delete_many keys] returns the
    number of keys asked for that were present, leaves none of them in the
    index, and leaves the cache as the successive [remove] calls do. *)
Theorem bulk_operations {V} (st : MemoryCache V)
    (keys : list (string * time_point)) (dkeys : list string) :
  cache_wf st → StronglySorted Z.le keys.*2 →
  (get_many keys st).1 = get_many_spec keys st ∧
  (∀ k v, (get_many keys st).1 !! k = Some v ↔
          ∃ now, (k, now) ∈ keys ∧ live_value st k now = Some v) ∧
  (get_many keys st).2 = run ((λ '(k, now), OpGet k now) <$> keys) st ∧
  (delete_many dkeys st).1 = delete_many_spec dkeys st ∧
  (∀ k, cache_ (delete_many dkeys st).2 !! k =
        if decide (k ∈ dkeys) then None else cache_ st !! k) ∧
  (delete_many dkeys st).2 = run (OpRemove <$> dkeys) st.
Proof.
  intros Hwf Hsorted. split_and!.
  - apply map_eq. intros k. apply option_eq. intros v.
    by rewrite get_many_lookup, get_many_spec_lookup.
  - intros k v. by apply get_many_lookup.
  - apply get_many_loop_state.
  - unfold delete_many. rewrite delete_many_loop_count. lia.
  - intros k. apply delete_many_loop_index.
  - apply delete_many_loop_state.
Qed.

Lemma bulk_operations_witness :
  let st : MemoryCache string :=
    run [OpSet "A" "a" 0 1; OpSet "B" "b" 1 2]
      (new_cache MemoryCacheOptions.default) in
  let keys := [("A", 2000000000); ("missing", 2000000001); ("B", 2000000002)] in
  cache_wf st ∧ StronglySorted Z.le keys.*2 ∧
  (get_many keys st).1 = get_many_spec keys st.
Proof.
  intros st keys.
  assert (cache_wf st) as Hwf by apply reachable_wf.
  assert (StronglySorted Z.le keys.*2) as Hsorted.
  { simpl. repeat constructor; lia. }
  split_and!; [exact Hwf|exact Hsorted|].
  exact (proj1 (bulk_operations st keys [] Hwf Hsorted)).
Defined.

(** * Further properties of the cache code *)

(** ** Single-key operations *)

Section single_key.
Context {V : Type}.
Implicit Types (st : MemoryCache V) (now : time_point) (k : string)
  (e : Entry V) (it : iterator).

(** When the entry [set] writes is expired, for a clock that reads no less
    than its epoch and a deadline [now + ttl] within [int64_t]. *)
Lemma set_deadline_expired options (ttl : seconds) now later (t : seconds)
    k (v : V) :
  t = (if bool_decide (ttl = 0)
       then MemoryCacheOptions.default_ttl options else ttl) →
  t <= 0 ∨ 0 <= now ∧ now + t * 1000000000 <= INT64_MAX →
  is_expired (mkEntry k v (set_deadline options ttl now)) later =
  bool_decide (0 < t ∧ now + t * 1000000000 < later).
Proof.
  intros Heq Hrange.
  destruct (set_deadline_in_range options ttl now t Heq) as [Hnever Hsum].
  unfold is_expired. simpl. destruct (decide (t <= 0)) as [Ht|Ht].
  - rewrite Hnever by done. rewrite bool_decide_eq_true_2 by done.
    symmetry. apply bool_decide_eq_false_2. lia.
  - rewrite Hsum by lia. unfold time_point_zero.
    rewrite bool_decide_eq_false_2 by lia.
    apply bool_decide_ext. lia.
Qed.

Lemma find_entry_live_value st k e now :
  find_entry st k = Some e →
  live_value st k now = if is_expired e now then None else Some (value e).
Proof. unfold live_value. by intros ->. Qed.

Lemma filter_ne_absent k (l : list string) :
  k ∉ l → filter (λ k', k' ≠ k) l = l.
Proof.
  induction l as [|k0 l IH]; [done|].
  intros [Hne Hl]%not_elem_of_cons.
  rewrite filter_cons_True by done. f_equal. by apply IH.
Qed.

Lemma remove_recency k st :
  cache_wf st →
  recency (remove k st).2 = filter (λ k', k' ≠ k) (recency st).
Proof.
  intros Hwf. pose proof Hwf as [Hst _]. unfold recency.
  destruct (cache_ st !! k) as [it|] eqn:Hc.
  - rewrite (remove_present _ _ _ Hc). simpl.
    apply list_erase_keys. intros n Hn. by apply (store_wf_node_key (cache_ st) (lru_ st)).
  - rewrite (remove_absent _ _ Hc). simpl.
    apply (store_wf_None _ _ k Hst) in Hc.
    by rewrite filter_ne_absent.
Qed.

Lemma remove_length_exact k st :
  cache_wf st →
  (length (lru_ (remove k st).2) + (if (remove k st).1 then 1 else 0))%nat =
  length (lru_ st).
Proof.
  intros [Hst _]. destruct (cache_ st !! k) as [it|] eqn:Hc.
  - rewrite (remove_present _ _ _ Hc). simpl.
    destruct (store_wf_deref _ _ _ _ Hst Hc) as (e & _ & _ & Hin).
    rewrite <- (list_erase_length (lru_ st) it e); [lia|apply Hst|done].
  - rewrite (remove_absent _ _ Hc). simpl. lia.
Qed.
End single_key.

(** X1.  Insert/lookup round trip.  After [set key value ttl] at clock
    reading [now], the TTL being [ttl] or, for a [ttl] of 0, the configured
    default: with a TTL of zero or less a [get] of the key returns the value
    and [exists] answers true at every later reading; with a positive TTL
    whose deadline [now + ttl], counted in ticks from a reading that is not
    before the clock's epoch, is within the range of the clock's [int64_t]
    tick count, [get] returns the value and [exists] answers true at every
    reading that is not after the deadline, and strictly after it [get]
    returns nothing and [exists] answers false. *)
Theorem set_get_round_trip {V} (st : MemoryCache V) (k : string) (v : V)
    (ttl : seconds) (now later : time_point) :
  cache_wf st →
  let t := if bool_decide (ttl = 0)
           then MemoryCacheOptions.default_ttl (options_ st) else ttl in
  let st' := set k v ttl now st in
  (t <= 0 →
     (get k later st').1 = Some v ∧ (exists_ k later st').1 = true) ∧
  (0 < t → 0 <= now → now + t * 1000000000 <= INT64_MAX →
     (later <= now + t * 1000000000 →
        (get k later st').1 = Some v ∧ (exists_ k later st').1 = true) ∧
     (now + t * 1000000000 < later →
        (get k later st').1 = None ∧ (exists_ k later st').1 = false)).
Proof.
  intros Hwf t st'.
  pose proof (set_find_entry k v ttl now st Hwf) as Hfind. fold st' in Hfind.
  pose proof (set_deadline_expired (options_ st) ttl now later t k v eq_refl)
    as Hexp.
  rewrite get_result, exists_result, (find_entry_live_value _ _ _ _ Hfind), Hfind.
  simpl. clearbody t. split.
  - intros Ht. rewrite Hexp by (by left).
    rewrite bool_decide_eq_false_2 by lia. done.
  - intros Ht Hnow Hmax. rewrite Hexp by (by right). split.
    + intros Hlive. rewrite bool_decide_eq_false_2 by lia. done.
    + intros Hlate. rewrite bool_decide_eq_true_2 by lia. done.
Qed.

Lemma set_get_round_trip_witness :
  let st : MemoryCache string := new_cache MemoryCacheOptions.default in
  cache_wf st ∧ 0 < 5 ∧ 0 <= 10 ∧ 10 + 5 * 1000000000 <= INT64_MAX ∧
  20 <= 10 + 5 * 1000000000 ∧
  (get "rom" 20 (set "rom" "meta" 5 10 st)).1 = Some "meta".
Proof.
  intros st.
  assert (cache_wf st) as Hwf by apply new_cache_wf.
  assert (0 < 5) as Ht by lia.
  assert (0 <= 10) as Hnow by lia.
  assert (10 + 5 * 1000000000 <= INT64_MAX) as Hmax
    by (vm_compute; discriminate).
  assert (20 <= 10 + 5 * 1000000000) as Hlive by lia.
  split; [exact Hwf|]. split; [exact Ht|]. split; [exact Hnow|].
  split; [exact Hmax|]. split; [exact Hlive|].
  exact (proj1 (proj1 (proj2 (set_get_round_trip st "rom" "meta" 5 10 20 Hwf)
                         Ht Hnow Hmax) Hlive)).
Defined.

(** X2.  [exists] answers true exactly when a [get] at the same clock
    reading would return a value, and, unlike [get], leaves the cache --
    entries, recency order and counters -- as it was. *)
Theorem exists_iff_get {V} (st : MemoryCache V) (k : string) (now : time_point) :
  ((exists_ k now st).1 = true ↔ is_Some (get k now st).1) ∧
  (exists_ k now st).2 = st.
Proof.
  split; [|apply exists_state].
  rewrite exists_result, get_result. unfold live_value.
  destruct (find_entry st k) as [e|]; simpl;
    [destruct (is_expired e now); simpl|];
    (split; intros H;
     [first [discriminate | by eexists] | first [done | by destruct H as [? [=]]]]).
Qed.

(** X3.  [remove] returns true exactly when the key has an entry in the
    store, expired or not.  Afterwards the key has no entry, a [get] of it
    returns nothing, a second [remove] returns false, every other entry and
    the order of the other keys are untouched, and the store is one entry
    shorter exactly when true was returned.  Removing a key that has no
    entry changes nothing at all. *)
Theorem remove_spec {V} (st : MemoryCache V) (k : string) :
  cache_wf st →
  ((remove k st).1 = true ↔ is_Some (find_entry st k)) ∧
  find_entry (remove k st).2 k = None ∧
  (∀ now, (get k now (remove k st).2).1 = None) ∧
  (remove k (remove k st).2).1 = false ∧
  (∀ k', k' ≠ k → find_entry (remove k st).2 k' = find_entry st k') ∧
  recency (remove k st).2 = filter (λ k', k' ≠ k) (recency st) ∧
  (length (lru_ (remove k st).2) + (if (remove k st).1 then 1 else 0))%nat =
    length (lru_ st) ∧
  (find_entry st k = None → (remove k st).2 = st).
Proof.
  intros Hwf.
  assert (find_entry (remove k st).2 k = None) as Hgone.
  { rewrite remove_find_entry by done. by rewrite decide_True. }
  split_and!.
  - destruct (cache_ st !! k) as [it|] eqn:Hc.
    + rewrite (remove_present _ _ _ Hc). simpl. split; [intros _|done].
      destruct (find_entry st k) eqn:Hf; [by eexists|].
      apply find_entry_None in Hf; [congruence|done].
    + rewrite (remove_absent _ _ Hc). simpl. split; [done|].
      apply (find_entry_None st k Hwf) in Hc. rewrite Hc. by intros [? [=]].
  - done.
  - intros now. rewrite get_result. unfold live_value. by rewrite Hgone.
  - apply find_entry_None in Hgone; [|by apply remove_wf].
    by rewrite (remove_absent _ _ Hgone).
  - intros k' Hne. rewrite remove_find_entry by done. by rewrite decide_False.
  - by apply remove_recency.
  - by apply remove_length_exact.
  - intros Hf. apply find_entry_None in Hf; [|done].
    by rewrite (remove_absent _ _ Hf).
Qed.

Lemma remove_spec_witness :
  let st : MemoryCache string :=
    run [OpSet "A" "a" 0 1; OpSet "B" "b" 0 2]
      (new_cache MemoryCacheOptions.default) in
  cache_wf st ∧ recency (remove "A" st).2 = filter (λ k', k' ≠ "A") (recency st).
Proof.
  intros st.
  assert (cache_wf st) as Hwf by apply reachable_wf.
  split; [exact Hwf|].
  exact (proj1 (proj2 (proj2 (proj2 (proj2 (proj2 (remove_spec st "A" Hwf))))))).
Defined.

(** X4.  What a [get] leaves behind.  A [get] that returns a value leaves
    the entry of the key as it was -- same value, same deadline: reading
    does not extend the TTL -- and a [get] of a key whose entry is expired
    erases that entry.  In both cases, and when the key has no entry, the
    entry of every other key is untouched. *)
Theorem get_frame {V} (st : MemoryCache V) (k : string) (now : time_point) :
  cache_wf st →
  (∀ v, (get k now st).1 = Some v →
        find_entry (get k now st).2 k = find_entry st k ∧
        ∃ e, find_entry st k = Some e ∧ value e = v ∧ is_expired e now = false) ∧
  ((get k now st).1 = None → find_entry (get k now st).2 k = None) ∧
  (∀ k', k' ≠ k → find_entry (get k now st).2 k' = find_entry st k').
Proof.
  intros Hwf. split_and!.
  - intros v. rewrite get_result, get_find_entry by done.
    rewrite decide_True by done. unfold live_value.
    destruct (find_entry st k) as [e|]; simpl; [|done].
    destruct (is_expired e now) eqn:Hexp; [done|]. intros [= <-]. eauto.
  - rewrite get_result, get_find_entry by done.
    rewrite decide_True by done. unfold live_value.
    destruct (find_entry st k) as [e|]; simpl; [|done].
    by destruct (is_expired e now).
  - intros k' Hne. rewrite get_find_entry by done. by rewrite decide_False.
Qed.

Lemma get_frame_witness :
  let st : MemoryCache string :=
    run [OpSet "A" "a" 0 1; OpSet "B" "b" 0 2]
      (new_cache MemoryCacheOptions.default) in
  cache_wf st ∧ find_entry (get "A" 3 st).2 "A" = find_entry st "A".
Proof.
  intros st.
  assert (cache_wf st) as Hwf by apply reachable_wf.
  split; [exact Hwf|].
  exact (proj1 (proj1 (get_frame st "A" 3 Hwf) "a" eq_refl)).
Defined.

(** ** Invariants of every reachable cache *)

Section reachable.
Context {V : Type}.
Implicit Types (st : MemoryCache V) (now : time_point) (k : string)
  (l : list (iterator * Entry V)) (c : gmap string iterator).

Lemma store_wf_keys_NoDup c l : store_wf c l → NoDup ((λ n, key n.2) <$> l).
Proof.
  intros Hwf. apply NoDup_fmap_2_strong.
  - intros [it e] [it' e'] Hin Hin' Hk. simpl in Hk.
    by destruct (store_wf_key_inj c l _ _ _ _ Hwf Hin Hin' Hk) as [-> ->].
  - apply (NoDup_fmap_1 fst), Hwf.
Qed.

Lemma store_wf_dom c l :
  store_wf c l → dom c = list_to_set ((λ n, key n.2) <$> l).
Proof.
  intros Hwf. apply set_eq. intros k.
  rewrite elem_of_dom, elem_of_list_to_set.
  destruct (c !! k) as [it|] eqn:Hc.
  - split; [intros _|by eexists].
    destruct (decide (k ∈ (λ n, key n.2) <$> l)) as [|Hni]; [done|].
    apply (store_wf_None _ _ k Hwf) in Hni. congruence.
  - split; [by intros [? [=]]|]. intros Hin.
    by apply (store_wf_None _ _ k Hwf) in Hc.
Qed.

Lemma store_wf_size c l : store_wf c l → size c = length l.
Proof.
  intros Hwf. rewrite <- size_dom, (store_wf_dom c l Hwf).
  rewrite size_list_to_set by by apply (store_wf_keys_NoDup c).
  apply length_fmap.
Qed.

Lemma find_entry_recency st k :
  cache_wf st → is_Some (find_entry st k) ↔ k ∈ recency st.
Proof.
  intros Hwf. rewrite <- not_eq_None_Some, find_entry_None by done.
  rewrite recency_index by done. split; [|tauto].
  intros Hnn. by destruct (decide (k ∈ recency st)).
Qed.
End reachable.

(** X5.  In every state a cache reaches from its constructor, whatever the
    calls, each key is stored at most once, the key index holds exactly the
    keys of the recency list, [size()] is the number of keys in the index,
    and a key has an entry exactly when it is in the recency list. *)
Theorem store_invariants {V} (options : MemoryCacheOptions.t) (ops : list (Op V)) :
  let st := run ops (new_cache options) in
  NoDup (recency st) ∧
  dom (cache_ st) = list_to_set (recency st) ∧
  size (cache_ st) = MemoryCache_size st ∧
  (∀ k, is_Some (find_entry st k) ↔ k ∈ recency st).
Proof.
  intros st. pose proof (reachable_wf options ops) as Hwf. fold st in Hwf.
  pose proof Hwf as [Hst _]. split_and!.
  - by apply store_wf_keys_NoDup with (cache_ st).
  - by apply store_wf_dom.
  - by apply store_wf_size.
  - intros k. by apply find_entry_recency.
Qed.

(** ** Hit and miss accounting *)

Section accounting.
Context {V : Type}.
Implicit Types (st : MemoryCache V) (now : time_point) (k : string).

Lemma get_counted_wf k now st :
  cache_wf st →
  - 2 ^ 63 <= hits_ st < INT64_MAX → - 2 ^ 63 <= misses_ st < INT64_MAX →
  get_counted st (get k now st).
Proof.
  intros [Hst _] Hh Hm. unfold get_counted, get.
  destruct (cache_ st !! k) as [it|] eqn:Hc; simpl.
  - destruct (store_wf_deref _ _ _ _ Hst Hc) as (e & -> & _).
    destruct (is_expired e now); simpl; by rewrite fetch_add_1.
  - by rewrite fetch_add_1.
Qed.

Lemma get_total k now st :
  cache_wf st →
  - 2 ^ 63 <= hits_ st < INT64_MAX → - 2 ^ 63 <= misses_ st < INT64_MAX →
  hits_ (get k now st).2 + misses_ (get k now st).2 = hits_ st + misses_ st + 1.
Proof.
  intros Hwf Hh Hm. pose proof (get_counted_wf k now st Hwf Hh Hm) as Hget.
  unfold get_counted in Hget. destruct (get k now st).1; lia.
Qed.

Lemma get_many_loop_total keys result st :
  cache_wf st → - 2 ^ 63 <= hits_ st → - 2 ^ 63 <= misses_ st →
  hits_ st + Z.of_nat (length keys) <= INT64_MAX →
  misses_ st + Z.of_nat (length keys) <= INT64_MAX →
  hits_ (get_many_loop keys result st).2 + misses_ (get_many_loop keys result st).2 =
  hits_ st + misses_ st + Z.of_nat (length keys).
Proof.
  revert result st. induction keys as [|[k now] keys IH];
    intros result st Hwf Hh Hm Hhb Hmb.
  - simpl. lia.
  - simpl get_many_loop. simpl length in *.
    pose proof (get_wf k now st Hwf) as Hwf'.
    pose proof (get_total k now st Hwf) as Htot.
    pose proof (get_counters k now st) as Hstep. unfold counters_step in Hstep.
    destruct (get k now st) as [o st']. simpl in *.
    destruct Hstep as [? ?]; [lia..|].
    rewrite IH by (done || lia). lia.
Qed.

Lemma step_total st op :
  cache_wf st → - 2 ^ 63 <= hits_ st → - 2 ^ 63 <= misses_ st →
  hits_ st + op_gets op <= INT64_MAX → misses_ st + op_gets op <= INT64_MAX →
  hits_ (step st op) + misses_ (step st op) = hits_ st + misses_ st + op_gets op.
Proof.
  intros Hwf Hh Hm Hhb Hmb.
  pose proof (step_counters st op Hh Hm Hhb Hmb) as [? ?].
  destruct op; simpl in *; try lia.
  - apply get_total; [done|lia..].
  - by apply get_many_loop_total.
Qed.

Lemma run_total ops st :
  cache_wf st → - 2 ^ 63 <= hits_ st → - 2 ^ 63 <= misses_ st →
  hits_ st + run_gets ops <= INT64_MAX → misses_ st + run_gets ops <= INT64_MAX →
  hits_ (run ops st) + misses_ (run ops st) = hits_ st + misses_ st + run_gets ops.
Proof.
  revert st. induction ops as [|op ops IH]; intros st Hwf Hh Hm Hhb Hmb; simpl.
  - lia.
  - simpl in Hhb, Hmb. pose proof (run_gets_nonneg ops).
    pose proof (op_gets_nonneg op).
    pose proof (step_counters st op Hh Hm) as [? ?]; [lia..|].
    rewrite IH by (by apply step_wf || lia).
    rewrite step_total by (done || lia). lia.
Qed.
End accounting.

(** X6.  Hit and miss accounting.  Each [get] counts exactly once: a [get]
    that returns a value adds one hit and no miss, a [get] that returns
    nothing adds one miss and no hit; so over any run the hits and misses
    together grow by the number of [get] calls made ([get_many] counting
    one per key asked for), and no other operation touches them.  The
    counters are taken not to wrap. *)
Theorem hit_miss_accounting {V} (st : MemoryCache V) (ops : list (Op V))
    (k : string) (now : time_point) :
  cache_wf st →
  - 2 ^ 63 <= hits_ st < INT64_MAX → - 2 ^ 63 <= misses_ st < INT64_MAX →
  hits_ st + run_gets ops <= INT64_MAX →
  misses_ st + run_gets ops <= INT64_MAX →
  match (get k now st).1 with
  | Some _ => hits_ (get k now st).2 = hits_ st + 1 ∧
              misses_ (get k now st).2 = misses_ st
  | None => hits_ (get k now st).2 = hits_ st ∧
            misses_ (get k now st).2 = misses_ st + 1
  end ∧
  hits_ (run ops st) + misses_ (run ops st) =
    hits_ st + misses_ st + run_gets ops.
Proof.
  intros Hwf Hh Hm Hhb Hmb. split.
  - by apply get_counted_wf.
  - apply run_total; [done|lia..].
Qed.

Lemma hit_miss_accounting_witness :
  let st : MemoryCache string :=
    run [OpSet "key1" "value1" 0 1; OpSet "key2" "value2" 0 2]
      (new_cache MemoryCacheOptions.default) in
  let ops : list (Op string) :=
    [OpGet "key1" 3; OpGet "key2" 4; OpGet "nonexistent" 5] in
  cache_wf st ∧
  hits_ (run ops st) + misses_ (run ops st) = hits_ st + misses_ st + run_gets ops.
Proof.
  intros st ops.
  assert (cache_wf st) as Hwf by apply reachable_wf.
  assert (- 2 ^ 63 <= hits_ st < INT64_MAX) as Hh by (vm_compute; split; discriminate || reflexivity).
  assert (- 2 ^ 63 <= misses_ st < INT64_MAX) as Hm by (vm_compute; split; discriminate || reflexivity).
  assert (hits_ st + run_gets ops <= INT64_MAX) as Hhb by (vm_compute; discriminate).
  assert (misses_ st + run_gets ops <= INT64_MAX) as Hmb by (vm_compute; discriminate).
  split; [exact Hwf|].
  exact (proj2 (hit_miss_accounting st ops "key1" 3 Hwf Hh Hm Hhb Hmb)).
Defined.

(** ** The background sweep and [close] *)

Section sweep.
Context {V : Type}.
Implicit Types (st : MemoryCache V) (now : time_point) (k : string)
  (l : list (iterator * Entry V)).

Lemma filter_none {A} (P : A → Prop) `{!∀ x, Decision (P x)} (l : list A) :
  (∀ x, x ∈ l → ¬ P x) → filter P l = [].
Proof.
  induction l as [|x l IH]; intros Hl; [done|].
  rewrite filter_cons_False by (apply Hl; left).
  apply IH. intros y Hy. apply Hl. by right.
Qed.

Lemma cleanup_expired_lru now st :
  lru_ (cleanup_expired now st) =
  filter (λ n, is_expired n.2 now = false) (lru_ st).
Proof. rewrite cleanup_expired_eq. simpl. apply cleanup_scan_filter. Qed.

Lemma cleanup_expired_find_entry now st k :
  cache_wf st →
  find_entry (cleanup_expired now st) k = unless_expired now (find_entry st k).
Proof.
  intros Hwf. pose proof (cleanup_expired_wf now st Hwf) as Hwf'.
  apply option_eq. intros e.
  rewrite find_entry_Some by done. rewrite cleanup_expired_lru.
  setoid_rewrite list_elem_of_filter. simpl.
  destruct (find_entry st k) as [e0|] eqn:Hf; simpl.
  - apply find_entry_Some in Hf as [[it0 Hin0] Hk0]; [|done]. split.
    + intros [(it & Hexp & Hin) Hk].
      destruct (store_wf_key_inj _ _ _ _ _ _ (wf_store _ Hwf) Hin Hin0) as [_ ->];
        [congruence|]. by rewrite Hexp.
    + destruct (is_expired e0 now) eqn:Hexp; [done|]. intros [= <-]. eauto.
  - split; [|done]. intros [(it & _ & Hin) Hk].
    assert (find_entry st k = Some e) as Hsome by (apply find_entry_Some; eauto).
    congruence.
Qed.

Lemma unless_expired_live_value now later (o : option (Entry V)) :
  now <= later →
  (e ← unless_expired now o; if is_expired e later then None else Some (value e)) =
  (e ← o; if is_expired e later then None else Some (value e)).
Proof.
  intros Hle. destruct o as [e|]; simpl; [|done].
  destruct (is_expired e now) eqn:Hexp; simpl; [|done].
  by rewrite (is_expired_mono e now later).
Qed.

Lemma stop_cleanup_get k now st : stop_cleanup_ (get k now st).2 = stop_cleanup_ st.
Proof. unfold get. by repeat case_match. Qed.

Lemma stop_cleanup_set k v ttl now st :
  stop_cleanup_ (set k v ttl now st) = stop_cleanup_ st.
Proof. unfold set. case_match; [done|]. simpl. by rewrite evict_if_needed_eq. Qed.

Lemma stop_cleanup_remove k st : stop_cleanup_ (remove k st).2 = stop_cleanup_ st.
Proof. unfold remove. by case_match. Qed.

Lemma stop_cleanup_tick now st :
  stop_cleanup_ (cleanup_tick now st) = stop_cleanup_ st.
Proof. unfold cleanup_tick. case_match; [done|]. by rewrite cleanup_expired_eq. Qed.

Lemma stop_cleanup_get_many keys result st :
  stop_cleanup_ (get_many_loop keys result st).2 = stop_cleanup_ st.
Proof.
  revert result st. induction keys as [|[k now] keys IH]; intros result st;
    simpl; [done|].
  pose proof (stop_cleanup_get k now st). destruct (get k now st) as [o st'].
  rewrite IH. done.
Qed.

Lemma stop_cleanup_set_many items ttl st :
  stop_cleanup_ (set_many items ttl st) = stop_cleanup_ st.
Proof.
  revert st. induction items as [|[[k v] now] items IH]; intros st; simpl; [done|].
  by rewrite IH, stop_cleanup_set.
Qed.

Lemma stop_cleanup_delete_many keys count st :
  stop_cleanup_ (delete_many_loop keys count st).2 = stop_cleanup_ st.
Proof.
  revert count st. induction keys as [|k keys IH]; intros count st; simpl; [done|].
  pose proof (stop_cleanup_remove k st). destruct (remove k st) as [b st'].
  rewrite IH. done.
Qed.

(** No operation clears the stop flag of the cleanup thread. *)
Lemma stop_cleanup_step st op :
  stop_cleanup_ st = true → stop_cleanup_ (step st op) = true.
Proof.
  intros Hstop. destruct op; simpl; try done.
  - by rewrite stop_cleanup_get.
  - by rewrite stop_cleanup_set.
  - by rewrite stop_cleanup_remove.
  - by rewrite exists_state.
  - by rewrite stop_cleanup_tick.
  - unfold get_many. by rewrite stop_cleanup_get_many.
  - by rewrite stop_cleanup_set_many.
  - unfold delete_many. by rewrite stop_cleanup_delete_many.
Qed.

Lemma stop_cleanup_run ops st :
  stop_cleanup_ st = true → stop_cleanup_ (run ops st) = true.
Proof.
  revert st. induction ops as [|op ops IH]; intros st Hstop; simpl; [done|].
  by apply IH, stop_cleanup_step.
Qed.
End sweep.

(** X7.  The sweep of the cleanup thread ([cleanup_expired]) erases exactly
    the entries that are expired at its clock reading and keeps the others
    in their order; afterwards no stored entry is expired and [stats]
    reports an [expired_count] of 0.  The sweep is invisible to readers:
    at every clock reading from then on each key yields through [get] and
    [exists] what it yielded without the sweep; and it leaves the hit and
    miss counters alone. *)
Theorem cleanup_expired_spec {V} (st : MemoryCache V) (now : time_point) :
  cache_wf st →
  let st' := cleanup_expired now st in
  lru_ st' = filter (λ n, is_expired n.2 now = false) (lru_ st) ∧
  expired_entries now st' = 0%nat ∧
  CacheStats.expired_count (stats now st') = 0 ∧
  live_count now st' = live_count now st ∧
  (∀ k, find_entry st' k = unless_expired now (find_entry st k)) ∧
  (∀ k later, now <= later → live_value st' k later = live_value st k later) ∧
  hits_ st' = hits_ st ∧ misses_ st' = misses_ st.
Proof.
  intros Hwf st'.
  assert (expired_entries now st' = 0%nat) as Hnone.
  { unfold expired_entries, st'. rewrite cleanup_expired_lru.
    rewrite filter_none; [done|].
    intros n [Hn _]%list_elem_of_filter. congruence. }
  split_and!.
  - apply cleanup_expired_lru.
  - done.
  - unfold stats. simpl. rewrite expired_count_fold.
    fold (expired_entries now st'). rewrite Hnone. done.
  - unfold live_count, st'. rewrite cleanup_expired_lru.
    by rewrite list_filter_filter_l.
  - intros k. by apply cleanup_expired_find_entry.
  - intros k later Hle. unfold live_value, st'.
    rewrite cleanup_expired_find_entry by done.
    by apply unless_expired_live_value.
  - unfold st'. by rewrite cleanup_expired_eq.
  - unfold st'. by rewrite cleanup_expired_eq.
Qed.

Lemma cleanup_expired_spec_witness :
  let st : MemoryCache string :=
    run [OpSet "A" "a" 1 500; OpSet "B" "b" 0 600]
      (new_cache MemoryCacheOptions.default) in
  cache_wf st ∧ recency (cleanup_expired 2000000000 st) = ["B"] ∧
  expired_entries 2000000000 (cleanup_expired 2000000000 st) = 0%nat.
Proof.
  intros st.
  assert (cache_wf st) as Hwf by apply reachable_wf.
  split; [exact Hwf|]. split; [reflexivity|].
  exact (proj1 (proj2 (cleanup_expired_spec st 2000000000 Hwf))).
Defined.

(** X8.  [close] is idempotent, empties the store and keeps the counters.
    Once a cache is closed the stop flag of its cleanup thread stays set,
    whatever is called afterwards, [set] included: no wake-up of the
    cleanup thread sweeps anything any more. *)
Theorem close_final {V} (st : MemoryCache V) (ops : list (Op V))
    (now : time_point) :
  close (close st) = close st ∧
  recency (close st) = [] ∧ cache_ (close st) = ∅ ∧
  hits_ (close st) = hits_ st ∧ misses_ (close st) = misses_ st ∧
  cleanup_tick now (run ops (close st)) = run ops (close st).
Proof.
  split_and!; try done.
  unfold cleanup_tick. by rewrite stop_cleanup_run.
Qed.

(** ** What [set] does to the other keys *)

Section set_frame.
Context {V : Type}.
Implicit Types (st : MemoryCache V) (now : time_point) (k : string)
  (e : Entry V) (it : iterator).

Lemma evict_if_needed_lru_suffix st : lru_ (evict_if_needed st) `suffix_of` lru_ st.
Proof. rewrite evict_if_needed_eq. simpl. apply evict_loop_suffix. Qed.

(** A [set] of a new key never changes the entry of another key: it can
    only lose it. *)
Lemma set_new_find_entry_sub k v ttl now st k' e :
  cache_wf st → cache_ st !! k = None → k' ≠ k →
  find_entry (set k v ttl now st) k' = Some e → find_entry st k' = Some e.
Proof.
  intros Hwf Hc Hne. pose proof (set_wf k v ttl now st Hwf) as Hwf'.
  rewrite !find_entry_Some by done.
  destruct (set_new_lru k v ttl now st Hc) as [it0 ->].
  intros [[it [Hin|Hin]%elem_of_app] Hk]; split; try done.
  - exists it. eapply elem_of_sublist; [done|].
    apply suffix_sublist, evict_if_needed_lru_suffix.
  - apply list_elem_of_singleton in Hin as [= -> ->]. simpl in Hk. congruence.
Qed.

Lemma set_new_below_find_entry k v ttl now st k' :
  cache_wf st → cache_ st !! k = None →
  int_range (MemoryCacheOptions.max_size (options_ st)) →
  Z.of_nat (length (lru_ st)) < MemoryCacheOptions.max_size (options_ st) →
  k' ≠ k → find_entry (set k v ttl now st) k' = find_entry st k'.
Proof.
  intros Hwf Hc Hm Hlen Hne. pose proof (set_wf k v ttl now st Hwf) as Hwf'.
  apply find_entry_ext; [done..|]. intros e He.
  destruct (set_new_lru k v ttl now st Hc) as [it0 ->].
  rewrite evict_if_needed_eq. simpl.
  rewrite evict_loop_below by (unfold int_range in Hm; lia). simpl.
  setoid_rewrite elem_of_app. setoid_rewrite list_elem_of_singleton. split.
  - intros (it & [Hin|[= -> ->]]); [eauto|]. simpl in He. congruence.
  - intros [it Hin]. eauto.
Qed.

Lemma set_new_full_find_entry k v ttl now st k' :
  cache_wf st → cache_ st !! k = None →
  int_range (MemoryCacheOptions.max_size (options_ st)) →
  1 <= MemoryCacheOptions.max_size (options_ st) →
  Z.of_nat (length (lru_ st)) = MemoryCacheOptions.max_size (options_ st) →
  k' ≠ k →
  find_entry (set k v ttl now st) k' =
  if decide (head (recency st) = Some k') then None else find_entry st k'.
Proof.
  intros Hwf Hc Hm H1 Hlen Hne. pose proof (set_wf k v ttl now st Hwf) as Hwf'.
  pose proof Hwf as [Hst _].
  apply option_eq. intros e. rewrite find_entry_Some by done.
  destruct (set_new_lru k v ttl now st Hc) as [it0 ->].
  rewrite evict_if_needed_eq. simpl. unfold recency.
  destruct (lru_ st) as [|[itn en] rest] eqn:Hl; [simpl in Hlen; lia|].
  rewrite evict_loop_full by (unfold int_range in Hm; lia). simpl.
  setoid_rewrite elem_of_app. setoid_rewrite list_elem_of_singleton.
  assert (∀ it, (it, e) ∈ rest → key e ≠ key en) as Hrest.
  { intros it Hin Hk.
    destruct (store_wf_key_inj _ _ it itn e en Hst) as [-> _];
      [by right|left|done|].
    destruct Hst as [Hnd _]. rewrite fmap_cons in Hnd.
    apply NoDup_cons in Hnd as [Hnd _]. apply Hnd.
    by apply (list_elem_of_fmap_2 fst) in Hin. }
  case_decide as Hhead.
  - injection Hhead as Hhead. split; [|done].
    intros [(it & [Hin|[= -> ->]]) Hk]; simpl in *; [|congruence].
    destruct (Hrest it Hin). congruence.
  - rewrite find_entry_Some by done. rewrite Hl.
    setoid_rewrite elem_of_cons. split.
    + intros [(it & [Hin|[= -> ->]]) Hk]; simpl in *; [|congruence].
      split; [|done]. exists it. by right.
    + intros [(it & [[= -> ->]|Hin]) Hk]; simpl in *.
      * destruct Hhead. by rewrite Hk.
      * split; [|done]. exists it. by left.
Qed.

Lemma set_recency_last k v ttl now st :
  cache_wf st → last (recency (set k v ttl now st)) = Some k.
Proof.
  intros Hwf. destruct (cache_ st !! k) as [it|] eqn:Hc.
  - rewrite set_existing_recency by done. apply last_snoc.
  - unfold recency. destruct (set_new_lru k v ttl now st Hc) as [it0 ->].
    rewrite fmap_snoc. apply last_snoc.
Qed.

Lemma last_not_head (l : list string) k :
  NoDup l → (2 <= length l)%nat → last l = Some k → head l ≠ Some k.
Proof.
  destruct l as [|k0 [|k1 l]]; simpl; [lia|lia|].
  intros [Hk0 _]%NoDup_cons _ Hlast [= ->]. apply Hk0.
  change (last (k1 :: l) = Some k) in Hlast.
  by apply last_Some_elem_of.
Qed.

(** With room for two entries or more, a [set] of another key keeps the
    entry of the most recently used key. *)
Lemma set_keeps_last k k2 v2 ttl2 now2 st :
  cache_wf st → capacity_ok st →
  int_range (MemoryCacheOptions.max_size (options_ st)) →
  2 <= MemoryCacheOptions.max_size (options_ st) →
  last (recency st) = Some k → k2 ≠ k →
  find_entry (set k2 v2 ttl2 now2 st) k = find_entry st k.
Proof.
  intros Hwf Hcap Hm H2 Hlast Hne. unfold capacity_ok in Hcap.
  destruct (cache_ st !! k2) as [it|] eqn:Hc.
  - apply set_existing_find_entry_other; [done|by eexists|done].
  - destruct (decide (Z.of_nat (length (lru_ st)) <
                      MemoryCacheOptions.max_size (options_ st))) as [Hlt|Hge].
    + by apply set_new_below_find_entry.
    + rewrite set_new_full_find_entry by (done || lia).
      rewrite decide_False; [done|].
      apply last_not_head; [|rewrite recency_length; lia|done].
      apply (store_wf_keys_NoDup (cache_ st)), Hwf.
Qed.

Lemma find_entry_clear st k : find_entry (clear st) k = None.
Proof. unfold find_entry, clear. simpl. by rewrite lookup_empty. Qed.
End set_frame.

(** X9.  A [set] of a new key changes no other entry.  Below capacity
    nothing is evicted: every other key keeps its entry.  With exactly
    [max_size] entries stored the head of the recency order, and only it,
    loses its entry.  In no case does the entry of another key change its
    value or deadline. *)
Theorem set_new_frame {V} (st : MemoryCache V) (k : string) (v : V)
    (ttl : seconds) (now : time_point) :
  cache_wf st → cache_ st !! k = None →
  int_range (MemoryCacheOptions.max_size (options_ st)) →
  1 <= MemoryCacheOptions.max_size (options_ st) →
  let st' := set k v ttl now st in
  (Z.of_nat (length (lru_ st)) < MemoryCacheOptions.max_size (options_ st) →
   ∀ k', k' ≠ k → find_entry st' k' = find_entry st k') ∧
  (Z.of_nat (length (lru_ st)) = MemoryCacheOptions.max_size (options_ st) →
   ∀ k', k' ≠ k →
     find_entry st' k' =
     if decide (head (recency st) = Some k') then None else find_entry st k') ∧
  (∀ k' e, k' ≠ k → find_entry st' k' = Some e → find_entry st k' = Some e).
Proof.
  intros Hwf Hc Hm H1 st'. split_and!.
  - intros Hlen k' Hne. by apply set_new_below_find_entry.
  - intros Hlen k' Hne. by apply set_new_full_find_entry.
  - intros k' e Hne. by apply set_new_find_entry_sub.
Qed.

Lemma set_new_frame_witness :
  let st : MemoryCache string :=
    run [OpSet "A" "a" 0 1; OpSet "B" "b" 0 2]
      (new_cache (MemoryCacheOptions.mk 2 3600 60)) in
  cache_wf st ∧ cache_ st !! "C" = None ∧
  int_range 2 ∧ 1 <= 2 ∧
  find_entry (set "C" "c" 0 3 st) "A" = None ∧
  find_entry (set "C" "c" 0 3 st) "B" = find_entry st "B".
Proof.
  intros st.
  assert (cache_wf st) as Hwf by apply reachable_wf.
  assert (cache_ st !! "C" = None) as Hc by reflexivity.
  assert (int_range 2) as Hm by (unfold int_range; lia).
  assert (1 <= 2) as H1 by lia.
  pose proof (proj1 (proj2 (set_new_frame st "C" "c" 0 3 Hwf Hc Hm H1)) eq_refl)
    as Hfull.
  split_and!; [exact Hwf|exact Hc|exact Hm|exact H1|..].
  - exact (Hfull "A" ltac:(discriminate)).
  - exact (Hfull "B" ltac:(discriminate)).
Defined.

(** X10.  The most recently used entry survives the next insertion.  On a
    cache with a [max_size] of 2 or more, the entry written by [set], and
    likewise the entry a [get] has just returned, is still there, unchanged,
    after a [set] of any other key, whether or not that [set] has to
    evict. *)
Theorem most_recent_survives {V} (st : MemoryCache V) (k k2 : string)
    (v v2 : V) (ttl ttl2 : seconds) (now now2 : time_point) :
  cache_wf st → capacity_ok st →
  int_range (MemoryCacheOptions.max_size (options_ st)) →
  2 <= MemoryCacheOptions.max_size (options_ st) →
  k2 ≠ k →
  find_entry (set k2 v2 ttl2 now2 (set k v ttl now st)) k =
    Some (mkEntry k v (set_deadline (options_ st) ttl now)) ∧
  (is_Some (get k now st).1 →
   find_entry (set k2 v2 ttl2 now2 (get k now st).2) k = find_entry st k).
Proof.
  intros Hwf Hcap Hm H2 Hne. split.
  - rewrite set_keeps_last.
    + by apply set_find_entry.
    + by apply set_wf.
    + by apply set_capacity_ok.
    + by rewrite set_options.
    + by rewrite set_options.
    + by apply set_recency_last.
    + done.
  - intros [w Hget]. rewrite set_keeps_last.
    + rewrite get_find_entry, decide_True by done.
      rewrite get_result in Hget. unfold live_value in Hget.
      destruct (find_entry st k) as [e|]; [|done]. simpl in Hget.
      by destruct (is_expired e now).
    + by apply get_wf.
    + eapply capacity_ok_shrink; [apply get_options|by apply get_length|done].
    + by rewrite get_options.
    + by rewrite get_options.
    + rewrite (get_hit_recency k now st w) by done. apply last_snoc.
    + done.
Qed.

Lemma most_recent_survives_witness :
  let st : MemoryCache string :=
    run [OpSet "A" "a" 0 1; OpSet "B" "b" 0 2]
      (new_cache (MemoryCacheOptions.mk 2 3600 60)) in
  cache_wf st ∧ capacity_ok st ∧ int_range 2 ∧ 2 <= 2 ∧ "C" ≠ "A" ∧
  find_entry (set "C" "c" 0 4 (set "A" "z" 0 3 st)) "A" =
    Some (mkEntry "A" "z" (set_deadline (options_ st) 0 3)).
Proof.
  intros st.
  assert (cache_wf st) as Hwf by apply reachable_wf.
  assert (capacity_ok st) as Hcap by (unfold capacity_ok; vm_compute; discriminate).
  assert (int_range 2) as Hm by (unfold int_range; lia).
  assert (2 <= 2) as H2 by lia.
  assert ("C" ≠ "A") as Hne by discriminate.
  split_and!; [exact Hwf|exact Hcap|exact Hm|exact H2|exact Hne|].
  exact (proj1 (most_recent_survives st "A" "C" "z" "c" 0 0 3 4 Hwf Hcap Hm H2 Hne)).
Defined.

(** ** Entries come from [set] alone *)

Section entries_from_set.
Context {V : Type}.
Implicit Types (st : MemoryCache V) (now : time_point) (k : string)
  (e : Entry V).

Lemma get_find_entry_sub k0 now st k e :
  cache_wf st → find_entry (get k0 now st).2 k = Some e → find_entry st k = Some e.
Proof.
  intros Hwf. rewrite get_find_entry by done. case_decide; [subst k0|done].
  destruct (find_entry st k) as [e0|]; [|done].
  by destruct (is_expired e0 now).
Qed.

Lemma remove_find_entry_sub k0 st k e :
  cache_wf st → find_entry (remove k0 st).2 k = Some e → find_entry st k = Some e.
Proof. intros Hwf. rewrite remove_find_entry by done. by case_decide. Qed.

Lemma set_find_entry_sub k0 v ttl now st k e :
  cache_wf st → k0 ≠ k →
  find_entry (set k0 v ttl now st) k = Some e → find_entry st k = Some e.
Proof.
  intros Hwf Hne. destruct (cache_ st !! k0) as [it|] eqn:Hc.
  - rewrite set_existing_find_entry_other; [done|done|by eexists|done].
  - by apply set_new_find_entry_sub.
Qed.

Lemma cleanup_tick_find_entry_sub now st k e :
  cache_wf st → find_entry (cleanup_tick now st) k = Some e → find_entry st k = Some e.
Proof.
  intros Hwf. unfold cleanup_tick. destruct (stop_cleanup_ st); [done|].
  rewrite cleanup_expired_find_entry by done.
  destruct (find_entry st k) as [e0|]; [|done]. simpl.
  by destruct (is_expired e0 now).
Qed.

Lemma get_many_loop_find_entry_sub keys result st k e :
  cache_wf st →
  find_entry (get_many_loop keys result st).2 k = Some e → find_entry st k = Some e.
Proof.
  revert result st. induction keys as [|[k0 t0] keys IH]; intros result st Hwf;
    simpl; [done|].
  pose proof (get_wf k0 t0 st Hwf) as Hwf'.
  pose proof (get_find_entry_sub k0 t0 st k e Hwf) as Hsub.
  destruct (get k0 t0 st) as [o st']. simpl in *.
  intros Hf. apply Hsub. by eapply IH.
Qed.

Lemma delete_many_loop_find_entry_sub keys count st k e :
  cache_wf st →
  find_entry (delete_many_loop keys count st).2 k = Some e → find_entry st k = Some e.
Proof.
  revert count st. induction keys as [|k0 keys IH]; intros count st Hwf;
    simpl; [done|].
  pose proof (remove_wf k0 st Hwf) as Hwf'.
  pose proof (remove_find_entry_sub k0 st k e Hwf) as Hsub.
  destruct (remove k0 st) as [b st']. simpl in *.
  intros Hf. apply Hsub. by eapply IH.
Qed.

Lemma set_many_find_entry_sub items ttl st k e :
  cache_wf st → k ∉ items.*1.*1 →
  find_entry (set_many items ttl st) k = Some e → find_entry st k = Some e.
Proof.
  revert st. induction items as [|[[k0 v] now] items IH]; intros st Hwf Hk;
    simpl; [done|].
  rewrite !fmap_cons in Hk. simpl in Hk. apply not_elem_of_cons in Hk as [Hne Hk].
  intros Hf. apply (set_find_entry_sub k0 v ttl now); [done|congruence|].
  apply IH; [by apply set_wf|done..].
Qed.

Lemma step_find_entry_sub st op k e :
  cache_wf st → ¬ op_sets k op →
  find_entry (step st op) k = Some e → find_entry st k = Some e.
Proof.
  intros Hwf Hop. destruct op; simpl in *.
  - by apply get_find_entry_sub.
  - by apply set_find_entry_sub.
  - by apply remove_find_entry_sub.
  - by rewrite exists_state.
  - by rewrite find_entry_clear.
  - unfold close. by rewrite find_entry_clear.
  - by apply cleanup_tick_find_entry_sub.
  - by apply get_many_loop_find_entry_sub.
  - by apply set_many_find_entry_sub.
  - by apply delete_many_loop_find_entry_sub.
Qed.

Lemma run_find_entry_sub ops st k e :
  cache_wf st → Forall (λ op, ¬ op_sets k op) ops →
  find_entry (run ops st) k = Some e → find_entry st k = Some e.
Proof.
  revert st. induction ops as [|op ops IH]; intros st Hwf Hops; simpl; [done|].
  apply Forall_cons in Hops as [Hop Hops]. intros Hf.
  apply (step_find_entry_sub st op); [done..|].
  apply IH; [by apply step_wf|done..].
Qed.
End entries_from_set.

(** X11.  Entries come from [set] alone.  Over any run of calls none of
    which is a [set] (or a [set_many]) of the key, the entry of the key is
    afterwards either gone or exactly the entry it was, value and deadline
    included; a key without an entry stays without one, and a [get] of it
    returns nothing. *)
Theorem entries_only_from_set {V} (st : MemoryCache V) (ops : list (Op V))
    (k : string) :
  cache_wf st → Forall (λ op, ¬ op_sets k op) ops →
  (∀ e, find_entry (run ops st) k = Some e → find_entry st k = Some e) ∧
  (find_entry st k = None →
   find_entry (run ops st) k = None ∧
   ∀ now, (get k now (run ops st)).1 = None).
Proof.
  intros Hwf Hops.
  assert (∀ e, find_entry (run ops st) k = Some e → find_entry st k = Some e)
    as Hsub by (intros e; by apply run_find_entry_sub).
  split; [done|]. intros Hnone.
  assert (find_entry (run ops st) k = None) as Hgone.
  { apply eq_None_not_Some. intros [e Hf]. apply Hsub in Hf. congruence. }
  split; [done|]. intros now. rewrite get_result. unfold live_value.
  by rewrite Hgone.
Qed.

Lemma entries_only_from_set_witness :
  let st : MemoryCache string :=
    run [OpSet "A" "a" 0 1] (new_cache (MemoryCacheOptions.mk 1 3600 60)) in
  let ops : list (Op string) := [OpGet "A" 2; OpSet "B" "b" 0 3; OpRemove "B"] in
  cache_wf st ∧ Forall (λ op, ¬ op_sets "A" op) ops ∧
  ∀ e, find_entry (run ops st) "A" = Some e → find_entry st "A" = Some e.
Proof.
  intros st ops.
  assert (cache_wf st) as Hwf by apply reachable_wf.
  assert (Forall (λ op, ¬ op_sets "A" op) ops) as Hops.
  { repeat constructor; simpl; first [discriminate | tauto]. }
  split; [exact Hwf|]. split; [exact Hops|].
  exact (proj1 (entries_only_from_set st ops "A" Hwf Hops)).
Defined.

(** ** [set_many] *)

Section set_many_facts.
Context {V : Type}.
Implicit Types (st : MemoryCache V) (now : time_point) (k : string).


Lemma set_many_fresh items ttl st :
  cache_wf st → int_range (MemoryCacheOptions.max_size (options_ st)) →
  NoDup items.*1.*1 →
  (∀ k, k ∈ items.*1.*1 → k ∉ recency st) →
  Z.of_nat (length (lru_ st)) + Z.of_nat (length items) <=
    MemoryCacheOptions.max_size (options_ st) →
  recency (set_many items ttl st) = recency st ++ items.*1.*1 ∧
  (∀ k v now, (k, v, now) ∈ items →
     find_entry (set_many items ttl st) k =
     Some (mkEntry k v (set_deadline (options_ st) ttl now))) ∧
  (∀ k', k' ∉ items.*1.*1 →
     find_entry (set_many items ttl st) k' = find_entry st k').
Proof.
  revert st. induction items as [|[[k v] now] items IH];
    intros st Hwf Hm Hnd Hfresh Hlen.
  { simpl. rewrite app_nil_r. split_and!; [done| |done].
    by intros k v now ?%elem_of_nil. }
  rewrite !fmap_cons in Hnd, Hfresh. simpl in Hnd, Hfresh.
  apply NoDup_cons in Hnd as [Hk Hnd]. simpl length in Hlen.
  assert (cache_ st !! k = None) as Hc.
  { apply recency_index; [done|]. apply Hfresh. left. }
  assert (recency (set k v ttl now st) = recency st ++ [k]) as Hrec.
  { apply set_new_below_capacity; [done..|lia]. }
  pose proof (set_wf k v ttl now st Hwf) as Hwf1.
  destruct (IH (set k v ttl now st)) as (IHrec & IHin & IHout).
  - done.
  - by rewrite set_options.
  - done.
  - intros k' Hk'. rewrite Hrec. apply not_elem_of_app. split.
    + apply Hfresh. by right.
    + apply not_elem_of_cons. split; [congruence|apply not_elem_of_nil].
  - rewrite set_options. rewrite <- recency_length, Hrec, length_app, recency_length.
    simpl. lia.
  - simpl set_many. rewrite set_options in IHin. split_and!.
    + rewrite IHrec, Hrec, <- app_assoc. done.
    + intros k0 v0 now0 [[= -> -> ->]|Hin]%elem_of_cons.
      * rewrite IHout by done. by apply set_find_entry.
      * by apply IHin.
    + intros k' Hk'. rewrite !fmap_cons in Hk'. simpl in Hk'.
      apply not_elem_of_cons in Hk' as [Hne Hk'].
      rewrite IHout by done.
      apply set_new_below_find_entry; [done..|lia|done].
Qed.
End set_many_facts.



(** ** Key prefixes: [PrefixedCache] and the cache helpers of [BaseProvider] *)

Section prefixes.
Implicit Types (p k : string).

Lemma prefix_key_nil k : prefix_key "" k = String ":" k.
Proof. reflexivity. Qed.

Lemma prefix_key_cons a p k : prefix_key (String a p) k = String a (prefix_key p k).
Proof. reflexivity. Qed.

Lemma prefix_key_inj p k1 k2 : prefix_key p k1 = prefix_key p k2 → k1 = k2.
Proof.
  induction p as [|a p IH].
  - rewrite !prefix_key_nil. by intros [= ->].
  - rewrite !prefix_key_cons. intros [= Heq]. by apply IH.
Qed.

Lemma colon_free_cons a p :
  colon_free (String a p) = true ↔ a ≠ ":"%char ∧ colon_free p = true.
Proof.
  simpl. rewrite andb_true_iff, negb_true_iff, Ascii.eqb_neq. done.
Qed.

Lemma prefix_key_disjoint p1 p2 k1 k2 :
  colon_free p1 = true → colon_free p2 = true →
  prefix_key p1 k1 = prefix_key p2 k2 → p1 = p2 ∧ k1 = k2.
Proof.
  revert p2. induction p1 as [|a p1 IH]; intros [|b p2] Hp1 Hp2.
  - rewrite !prefix_key_nil. by intros [= ->].
  - rewrite prefix_key_nil, prefix_key_cons. intros [= <- _].
    by apply colon_free_cons in Hp2 as [[] _].
  - rewrite prefix_key_nil, prefix_key_cons. intros [= -> _].
    by apply colon_free_cons in Hp1 as [[] _].
  - rewrite !prefix_key_cons. intros [= -> Heq].
    apply colon_free_cons in Hp1 as [_ Hp1]. apply colon_free_cons in Hp2 as [_ Hp2].
    destruct (IH p2 Hp1 Hp2 Heq) as [-> ->]. done.
Qed.

Lemma prefix_key_nested p1 p2 k :
  prefix_key p1 (prefix_key p2 k) = prefix_key (prefix_key p1 p2) k.
Proof.
  induction p1 as [|a p1 IH].
  - rewrite !prefix_key_nil. by rewrite prefix_key_cons.
  - rewrite !prefix_key_cons. by rewrite IH.
Qed.
End prefixes.

(** X13.  Prefixed keys do not collide.  Under one prefix, whatever it is,
    distinct keys get distinct backend keys; and under two different
    prefixes neither of which contains a colon, no key of the one namespace
    is a key of the other. *)
Theorem prefix_key_namespaces (p p1 p2 k1 k2 : string) :
  (prefix_key p k1 = prefix_key p k2 → k1 = k2) ∧
  (colon_free p1 = true → colon_free p2 = true →
   (prefix_key p1 k1 = prefix_key p2 k2 → p1 = p2 ∧ k1 = k2) ∧
   (p1 ≠ p2 → prefix_key p1 k1 ≠ prefix_key p2 k2)).
Proof.
  split; [apply prefix_key_inj|]. intros Hp1 Hp2. split.
  - by apply prefix_key_disjoint.
  - intros Hne Heq. by destruct (prefix_key_disjoint p1 p2 k1 k2 Hp1 Hp2 Heq).
Qed.

Lemma prefix_key_namespaces_witness :
  (prefix_key "igdb:eu" "zelda" = prefix_key "igdb:eu" "zelda" → "zelda" = "zelda") ∧
  colon_free "igdb" = true ∧ colon_free "mobygames" = true ∧
  prefix_key "igdb" "search:zelda" ≠ prefix_key "mobygames" "search:zelda".
Proof.
  assert (colon_free "igdb" = true) as Hp1 by reflexivity.
  assert (colon_free "mobygames" = true) as Hp2 by reflexivity.
  split.
  - exact (proj1 (prefix_key_namespaces "igdb:eu" "igdb" "mobygames"
                    "zelda" "zelda")).
  - split; [exact Hp1|]. split; [exact Hp2|].
    exact (proj2 (proj2 (prefix_key_namespaces "igdb:eu" "igdb" "mobygames"
                           "search:zelda" "search:zelda") Hp1 Hp2)
             ltac:(discriminate)).
Defined.

(** X14.  Wrappers compose: a [PrefixedCache] with prefix [outer] around a
    [PrefixedCache] with prefix [inner] around a backend acts on the
    backend, in each of its methods, as the single [PrefixedCache] whose
    prefix is [inner], a colon, and [outer]. *)
Theorem prefixed_cache_nested {V C} (backend : Cache V C) (inner outer : string)
    (key : string) (value : V) (ttl : seconds) (now : time_point) (c : C) :
  let nested := PrefixedCache_Cache (PrefixedCache_Cache backend inner) outer in
  let single := PrefixedCache_Cache backend (prefix_key inner outer) in
  @cache_get _ _ nested key now c = @cache_get _ _ single key now c ∧
  @cache_set _ _ nested key value ttl now c = @cache_set _ _ single key value ttl now c ∧
  @cache_remove _ _ nested key c = @cache_remove _ _ single key c ∧
  @cache_exists _ _ nested key now c = @cache_exists _ _ single key now c ∧
  @cache_clear _ _ nested c = @cache_clear _ _ single c ∧
  @cache_close _ _ nested c = @cache_close _ _ single c.
Proof.
  intros nested single. unfold nested, single. simpl.
  rewrite prefix_key_nested. done.
Qed.

(** ** Prefixed views of one [MemoryCache] *)

Section prefixed_memory.
Context {V : Type}.
Implicit Types (st : MemoryCache V) (now : time_point) (p k : string).

Lemma set_other_value k0 v ttl now st k later w :
  cache_wf st → k0 ≠ k →
  (get k later (set k0 v ttl now st)).1 = Some w →
  ∃ e, find_entry st k = Some e ∧ value e = w ∧ is_expired e later = false.
Proof.
  intros Hwf Hne. rewrite get_result. unfold live_value.
  destruct (find_entry (set k0 v ttl now st) k) as [e|] eqn:Hf; [|done].
  apply set_find_entry_sub in Hf; [|done..]. simpl.
  destruct (is_expired e later) eqn:Hexp; [done|]. intros [= <-]. eauto.
Qed.
End prefixed_memory.

(** X15.  Prefixed views of one [MemoryCache].  Through a [PrefixedCache],
    whatever its prefix, a value written with [set] is returned by [get]
    under the same key until the deadline of its entry.  A write through
    one view never shows through a view with another prefix, neither
    prefix containing a colon: what a [get] through the other view returns
    was stored before the write.  [clear] is not confined to the view:
    after a [clear] through one view a [get] through any view, the clearing
    one included, returns nothing. *)
Theorem prefixed_memory_cache {V} (st : MemoryCache V) (p1 p2 p k1 k2 k : string)
    (v : V) (ttl : seconds) (now later : time_point) :
  cache_wf st →
  (@cache_get _ _ (PrefixedCache_Cache MemoryCache_Cache p1) k1 later
     (@cache_set _ _ (PrefixedCache_Cache MemoryCache_Cache p1) k1 v ttl now st)).1 =
    (if is_expired (mkEntry (prefix_key p1 k1) v (set_deadline (options_ st) ttl now))
          later
     then None else Some v) ∧
  (colon_free p1 = true → colon_free p2 = true → p1 ≠ p2 →
   ∀ w, (@cache_get _ _ (PrefixedCache_Cache MemoryCache_Cache p2) k2 later
           (@cache_set _ _ (PrefixedCache_Cache MemoryCache_Cache p1) k1 v ttl now
              st)).1 = Some w →
        ∃ e, find_entry st (prefix_key p2 k2) = Some e ∧ value e = w ∧
             is_expired e later = false) ∧
  (@cache_get _ _ (PrefixedCache_Cache MemoryCache_Cache p) k later
     (@cache_clear _ _ (PrefixedCache_Cache MemoryCache_Cache p1) st)).1 = None.
Proof.
  intros Hwf. simpl. split_and!.
  - rewrite get_result.
    by rewrite (find_entry_live_value _ _ _ _ (set_find_entry _ v ttl now st Hwf)).
  - intros Hp1 Hp2 Hne w. apply set_other_value; [done|].
    intros Heq. by destruct (prefix_key_disjoint p1 p2 k1 k2 Hp1 Hp2 Heq).
  - rewrite get_result. unfold live_value. by rewrite find_entry_clear.
Qed.

Lemma prefixed_memory_cache_witness :
  let st : MemoryCache string :=
    run [OpSet "hltb:zelda" "hours" 0 5] (new_cache MemoryCacheOptions.default) in
  cache_wf st ∧ colon_free "igdb" = true ∧ colon_free "hltb" = true ∧
  "igdb" ≠ "hltb" ∧
  (@cache_get _ _ (PrefixedCache_Cache MemoryCache_Cache "hltb") "zelda" 20
     (@cache_set _ _ (PrefixedCache_Cache MemoryCache_Cache "igdb") "zelda" "meta"
        0 10 st)).1 = Some "hours" ∧
  ∃ e, find_entry st (prefix_key "hltb" "zelda") = Some e ∧ value e = "hours" ∧
       is_expired e 20 = false.
Proof.
  intros st.
  assert (cache_wf st) as Hwf by apply reachable_wf.
  assert (colon_free "igdb" = true) as Hp1 by reflexivity.
  assert (colon_free "hltb" = true) as Hp2 by reflexivity.
  assert ("igdb" ≠ "hltb") as Hne by discriminate.
  assert ((@cache_get _ _ (PrefixedCache_Cache MemoryCache_Cache "hltb") "zelda" 20
             (@cache_set _ _ (PrefixedCache_Cache MemoryCache_Cache "igdb") "zelda"
                "meta" 0 10 st)).1 = Some "hours") as Hget by reflexivity.
  split_and!; [exact Hwf|exact Hp1|exact Hp2|exact Hne|exact Hget|].
  exact (proj1 (proj2 (prefixed_memory_cache st "igdb" "hltb" "hltb" "zelda"
                         "zelda" "zelda" "meta" 0 10 20 Hwf))
           Hp1 Hp2 Hne "hours" Hget).
Defined.

(** X16.  The cache helpers of a provider.  A provider without a cache, or
    with a [NullCache], gets nothing from [get_cached], also after
    [set_cached].  A provider with a cache reads and writes it as a
    [PrefixedCache] whose prefix is the provider's name does, with the TTL
    left to the cache's default.  On a [MemoryCache] whose default TTL is
    zero or negative a value stored with [set_cached] is returned by
    [get_cached] for ever; with a positive default TTL for which the
    deadline, the clock reading (not before the clock's epoch) plus the TTL
    in ticks, is within the range of the clock's [int64_t] tick count, it
    is returned at every reading up to that deadline, and not after. *)
Theorem provider_cache {V} (st : MemoryCache V) (name_ key : string) (v : V)
    (now later : time_point) :
  let d := MemoryCacheOptions.default_ttl (options_ st) in
  get_cached name_ (set_cached name_ (None : option (MemoryCache V)) key v now)
    key later = (None, None) ∧
  (@get_cached V _ NullCache_Cache name_
     (@set_cached V _ NullCache_Cache name_ (Some mkNullCache) key v now)
     key later).1 = None ∧
  get_cached name_ (Some st) key now =
    ((@cache_get _ _ (PrefixedCache_Cache MemoryCache_Cache name_) key now st).1,
     Some (@cache_get _ _ (PrefixedCache_Cache MemoryCache_Cache name_) key now st).2) ∧
  set_cached name_ (Some st) key v now =
    Some (@cache_set _ _ (PrefixedCache_Cache MemoryCache_Cache name_) key v 0 now st) ∧
  (cache_wf st →
   (d <= 0 →
    (get_cached name_ (set_cached name_ (Some st) key v now) key later).1 = Some v) ∧
   (0 < d → 0 <= now → now + d * 1000000000 <= INT64_MAX →
    (later <= now + d * 1000000000 →
     (get_cached name_ (set_cached name_ (Some st) key v now) key later).1 =
       Some v) ∧
    (now + d * 1000000000 < later →
     (get_cached name_ (set_cached name_ (Some st) key v now) key later).1 =
       None))).
Proof.
  intros d. split_and!.
  - done.
  - done.
  - unfold get_cached. simpl. unfold prefix_key. by destruct (get _ now st).
  - done.
  - intros Hwf.
    pose proof (set_find_entry ((name_ +:+ ":") +:+ key) v 0 now st Hwf) as Hfind.
    pose proof (set_deadline_expired (options_ st) 0 now later d
                  ((name_ +:+ ":") +:+ key) v eq_refl) as Hexp.
    assert ((get_cached name_ (set_cached name_ (Some st) key v now) key later).1 =
            if is_expired (mkEntry ((name_ +:+ ":") +:+ key) v
                             (set_deadline (options_ st) 0 now)) later
            then None else Some v) as Hget.
    { unfold get_cached, set_cached. simpl.
      pose proof (get_result ((name_ +:+ ":") +:+ key) later
                    (set ((name_ +:+ ":") +:+ key) v 0 now st)) as Hres.
      destruct (get _ later _) as [r c']. simpl in *. subst r.
      by rewrite (find_entry_live_value _ _ _ _ Hfind). }
    rewrite Hget. clear Hget. clearbody d. split.
    + intros Hd. rewrite Hexp by (by left).
      by rewrite bool_decide_eq_false_2 by lia.
    + intros Hd Hnow Hmax. rewrite Hexp by (by right). split.
      * intros Hlive. by rewrite bool_decide_eq_false_2 by lia.
      * intros Hlate. by rewrite bool_decide_eq_true_2 by lia.
Qed.

Lemma provider_cache_witness :
  let st : MemoryCache string := new_cache MemoryCacheOptions.default in
  cache_wf st ∧ 0 < 3600 ∧ 0 <= 10 ∧ 10 + 3600 * 1000000000 <= INT64_MAX ∧
  20 <= 10 + 3600 * 1000000000 ∧
  (get_cached "igdb" (set_cached "igdb" (Some st) "search:zelda" "meta" 10)
     "search:zelda" 20).1 = Some "meta".
Proof.
  intros st.
  assert (cache_wf st) as Hwf by apply new_cache_wf.
  assert (0 < 3600) as Hd by lia.
  assert (0 <= 10) as Hnow by lia.
  assert (10 + 3600 * 1000000000 <= INT64_MAX) as Hmax
    by (vm_compute; discriminate).
  assert (20 <= 10 + 3600 * 1000000000) as Hlive by lia.
  split; [exact Hwf|]. split; [exact Hd|]. split; [exact Hnow|].
  split; [exact Hmax|]. split; [exact Hlive|].
  exact (proj1 (proj2 (proj2 (proj2 (proj2 (proj2
           (provider_cache st "igdb" "search:zelda" "meta" 10 20)))) Hwf)
           Hd Hnow Hmax) Hlive).
Defined.

(** X17.  Providers that share a [MemoryCache] do not read each other's
    values: when two providers have different names without a colon, what
    [get_cached] returns to the one after a [set_cached] of the other was
    stored under its own name and key before that [set_cached]. *)
Theorem provider_cache_isolated {V} (st : MemoryCache V)
    (name1 name2 key1 key2 : string) (v w : V) (now later : time_point) :
  cache_wf st → colon_free name1 = true → colon_free name2 = true →
  name1 ≠ name2 →
  (get_cached name2 (set_cached name1 (Some st) key1 v now) key2 later).1 = Some w →
  ∃ e, find_entry st (prefix_key name2 key2) = Some e ∧ value e = w ∧
       is_expired e later = false.
Proof.
  intros Hwf Hn1 Hn2 Hne. unfold get_cached, set_cached. simpl.
  pose proof (set_other_value ((name1 +:+ ":") +:+ key1) v 0 now st
                ((name2 +:+ ":") +:+ key2) later w Hwf) as Hother.
  destruct (get _ later _) as [r c']. simpl in *. apply Hother.
  intros Heq. by destruct (prefix_key_disjoint name1 name2 key1 key2 Hn1 Hn2 Heq).
Qed.

Lemma provider_cache_isolated_witness :
  let st : MemoryCache string :=
    run [OpSet "hltb:zelda" "hours" 0 5] (new_cache MemoryCacheOptions.default) in
  cache_wf st ∧ colon_free "igdb" = true ∧ colon_free "hltb" = true ∧
  "igdb" ≠ "hltb" ∧
  (get_cached "hltb" (set_cached "igdb" (Some st) "zelda" "meta" 10) "zelda" 20).1 =
    Some "hours" ∧
  ∃ e, find_entry st (prefix_key "hltb" "zelda") = Some e ∧ value e = "hours" ∧
       is_expired e 20 = false.
Proof.
  intros st.
  assert (cache_wf st) as Hwf by apply reachable_wf.
  assert (colon_free "igdb" = true) as Hn1 by reflexivity.
  assert (colon_free "hltb" = true) as Hn2 by reflexivity.
  assert ("igdb" ≠ "hltb") as Hne by discriminate.
  assert ((get_cached "hltb" (set_cached "igdb" (Some st) "zelda" "meta" 10)
             "zelda" 20).1 = Some "hours") as Hget by reflexivity.
  split_and!; [exact Hwf|exact Hn1|exact Hn2|exact Hne|exact Hget|].
  exact (provider_cache_isolated st "igdb" "hltb" "zelda" "zelda" "meta" "hours"
           10 20 Hwf Hn1 Hn2 Hne Hget).
Defined.

(** ** Bulk operations composed *)

Section bulk_composed.
Context {V : Type}.
Implicit Types (st : MemoryCache V) (now : time_point) (k : string).

Lemma delete_many_loop_find_entry keys count st k :
  cache_wf st →
  find_entry (delete_many_loop keys count st).2 k =
  if decide (k ∈ keys) then None else find_entry st k.
Proof.
  revert count st. induction keys as [|k0 keys IH]; intros count st Hwf.
  - done.
  - simpl delete_many_loop.
    pose proof (remove_wf k0 st Hwf) as Hwf'.
    pose proof (remove_find_entry st k0 k Hwf) as Hrm.
    destruct (remove k0 st) as [b st']. simpl in Hwf', Hrm.
    rewrite IH, Hrm by done.
    destruct (decide (k = k0)) as [->|Hne].
    + rewrite (decide_True (P := k0 ∈ k0 :: keys)) by left. by case_decide.
    + destruct (decide (k ∈ keys)) as [Hin|Hni].
      * by rewrite decide_True by by right.
      * rewrite decide_False; [done|]. by intros [?|?]%elem_of_cons.
Qed.
End bulk_composed.

(** X18.  Bulk round trip.  After a [set_many] of items with distinct keys
    that were not stored and for which the store has room, a [get_many]
    (its clock readings in order) returns, for every key it asks for that
    is among the items and whose entry is not expired at the reading of its
    [get], the value of that item. *)
Theorem set_many_get_many {V} (st : MemoryCache V)
    (items : list (string * V * time_point)) (ttl : seconds)
    (keys : list (string * time_point)) (k : string) (v : V)
    (now later : time_point) :
  cache_wf st → int_range (MemoryCacheOptions.max_size (options_ st)) →
  NoDup items.*1.*1 →
  (∀ k, k ∈ items.*1.*1 → find_entry st k = None) →
  Z.of_nat (length (lru_ st)) + Z.of_nat (length items) <=
    MemoryCacheOptions.max_size (options_ st) →
  StronglySorted Z.le keys.*2 →
  (k, v, now) ∈ items → (k, later) ∈ keys →
  is_expired (mkEntry k v (set_deadline (options_ st) ttl now)) later = false →
  (get_many keys (set_many items ttl st)).1 !! k = Some v.
Proof.
  intros Hwf Hm Hnd Hfresh Hlen Hsorted Hitem Hkey Hlive.
  apply get_many_lookup; [by apply set_many_wf|done|].
  exists later. split; [done|].
  destruct (set_many_fresh items ttl st Hwf Hm Hnd) as (_ & Hin & _); [|done|].
  { intros k' Hk'. apply recency_index; [done|].
    apply find_entry_None; [done|]. by apply Hfresh. }
  rewrite (find_entry_live_value _ _ _ _ (Hin k v now Hitem)). by rewrite Hlive.
Qed.

Lemma set_many_get_many_witness :
  let st : MemoryCache string := new_cache (MemoryCacheOptions.mk 3 3600 60) in
  let items := [("B", "b", 2); ("C", "c", 3)] in
  let keys := [("C", 10); ("missing", 11); ("B", 12)] in
  (get_many keys (set_many items 0 st)).1 !! "B" = Some "b".
Proof.
  intros st items keys.
  assert (cache_wf st) as Hwf by apply new_cache_wf.
  assert (int_range 3) as Hm by (unfold int_range; lia).
  assert (NoDup items.*1.*1) as Hnd.
  { simpl. apply NoDup_cons. split; [not_in_list|].
    apply NoDup_cons. split; [not_in_list|constructor]. }
  assert (∀ k, k ∈ items.*1.*1 → find_entry st k = None) as Hfresh
    by (intros k _; reflexivity).
  assert (Z.of_nat (length (lru_ st)) + Z.of_nat (length items) <= 3) as Hlen
    by (vm_compute; discriminate).
  assert (StronglySorted Z.le keys.*2) as Hsorted
    by (simpl; repeat constructor; lia).
  assert (("B", "b", 2) ∈ items) as Hitem by left.
  assert (("B", 12) ∈ keys) as Hkey by (right; right; left).
  exact (set_many_get_many st items 0 keys "B" "b" 2 12 Hwf Hm Hnd Hfresh Hlen
           Hsorted Hitem Hkey eq_refl).
Defined.

(** X19.  [delete_many] removes the keys asked for and nothing else.
    Afterwards a key that was asked for has no entry: [get] returns nothing
    for it, [exists] answers false, and a [get_many] has no binding for it;
    a key that was not asked for keeps its entry as it was. *)
Theorem delete_many_removes {V} (st : MemoryCache V) (dkeys : list string)
    (k : string) :
  cache_wf st →
  let st' := (delete_many dkeys st).2 in
  (k ∈ dkeys →
   find_entry st' k = None ∧
   (∀ now, (get k now st').1 = None ∧ (exists_ k now st').1 = false) ∧
   (∀ keys, (get_many keys st').1 !! k = None)) ∧
  (k ∉ dkeys → find_entry st' k = find_entry st k).
Proof.
  intros Hwf st'.
  pose proof (delete_many_loop_find_entry dkeys 0 st k Hwf) as Hf.
  fold (delete_many dkeys st) in Hf. fold st' in Hf.
  assert (cache_wf st') as Hwf' by by apply delete_many_loop_wf.
  split.
  - intros Hin. rewrite decide_True in Hf by done. split_and!.
    + done.
    + intros now. rewrite get_result, exists_result. unfold live_value.
      by rewrite Hf.
    + intros keys. apply eq_None_not_Some. intros [v Hv]. unfold get_many in Hv.
      apply get_many_loop_sound in Hv as [Hv|(now & _ & Hlive)]; [| |done].
      * by rewrite lookup_empty in Hv.
      * unfold live_value in Hlive. by rewrite Hf in Hlive.
  - intros Hni. by rewrite decide_False in Hf.
Qed.

Lemma delete_many_removes_witness :
  let st : MemoryCache string :=
    run [OpSet "A" "a" 0 1; OpSet "B" "b" 0 2]
      (new_cache MemoryCacheOptions.default) in
  cache_wf st ∧ ("B" ∉ ["A"; "missing"]) ∧
  find_entry (delete_many ["A"; "missing"] st).2 "B" = find_entry st "B".
Proof.
  intros st.
  assert (cache_wf st) as Hwf by apply reachable_wf.
  assert ("B" ∉ ["A"; "missing"]) as Hni by not_in_list.
  split; [exact Hwf|]. split; [exact Hni|].
  exact (proj2 (delete_many_removes st ["A"; "missing"] "B" Hwf) Hni).
Defined.
